(** * Historical Court: the tools and the agent graph of [agents.py]

    The Python module defines three tools ([append_to_state], [write_file],
    [exit_loop]) and wires five reasoning agents into a loop, a parallel and a
    sequential composite.  The tools are embedded as functions in a small
    state-and-exception monad over the run's world (state store, context flag,
    file system, log); the agent graph is embedded as data.  The composites
    themselves ([SequentialAgent], [ParallelAgent], [LoopAgent]) belong to
    google.adk; module [Runner] gives them the semantics the specification
    describes, with the reasoning of the agents and the scheduling of
    concurrent agents left to an oracle. *)

From Stdlib Require Import ZArith Lia Ascii String.
From stdpp Require Import base option list gmap strings fin_maps.

Local Open Scope string_scope.
Local Open Scope list_scope.
Local Set Warnings "-register-all".

(** ** Python values and results *)

Module Py.

(** The values a state key can hold.  [PList] is a Python list, whose
    elements are again values. *)
Inductive pyval : Type :=
| PNone
| PInt (z : Z)
| PStr (s : string)
| PList (l : list pyval).

(** The exceptions the tools can let escape.  [OSError errno] is an
    [OSError] that has no subclass of its own. *)
Inductive exn : Type :=
| TypeError
| FileNotFoundError
| FileExistsError
| NotADirectoryError
| IsADirectoryError
| PermissionError
| ValueError
| UnicodeEncodeError
| OSError (errno : nat).

(** [isinstance(e, OSError)] *)
Definition is_oserror (e : exn) : bool :=
  match e with
  | TypeError | ValueError | UnicodeEncodeError => false
  | _ => true
  end.

Inductive pyresult (A : Type) : Type :=
| Return (a : A)
| Raise (e : exn).
Arguments Return {A} a.
Arguments Raise {A} e.

(** Python's binary [+] on the values above.  Only operands of the same
    kind add; in particular [str + list] is a [TypeError]. *)
Definition py_add (a b : pyval) : pyresult pyval :=
  match a, b with
  | PInt x, PInt y => Return (PInt (x + y))
  | PStr s, PStr t => Return (PStr (s +:+ t))
  | PList l, PList k => Return (PList (l ++ k))
  | _, _ => Raise TypeError
  end.

(** [d.get(key, default)] *)
Definition dict_get (d : gmap string pyval) (key : string) (default : pyval) : pyval :=
  match d !! key with
  | Some v => v
  | None => default
  end.

(** [is_list v] holds for a Python list. *)
Definition is_list (v : pyval) : bool :=
  match v with
  | PList _ => true
  | _ => false
  end.

End Py.
Export Py.

(** ** POSIX path strings ([os.path] on a POSIX host) *)

Module PosixPath.

Definition is_slash (c : ascii) : bool := bool_decide (c = "/"%char).

Definition starts_with_slash (p : string) : bool :=
  match p with
  | String c _ => is_slash c
  | EmptyString => false
  end.

Fixpoint ends_with_slash (p : string) : bool :=
  match p with
  | EmptyString => false
  | String c EmptyString => is_slash c
  | String _ s => ends_with_slash s
  end.

Fixpoint all_slash (p : string) : bool :=
  match p with
  | EmptyString => true
  | String c s => is_slash c && all_slash s
  end.

(** [p.rstrip('/')] *)
Fixpoint rstrip_slash (p : string) : string :=
  match p with
  | EmptyString => EmptyString
  | String c s =>
      match rstrip_slash s with
      | EmptyString => if is_slash c then EmptyString else String c EmptyString
      | r => String c r
      end
  end.

(** [(p[:i], p[i:])] for [i = p.rfind('/') + 1]. *)
Fixpoint cut_last_slash (p : string) : string * string :=
  match p with
  | EmptyString => (EmptyString, EmptyString)
  | String c s =>
      match cut_last_slash s with
      | (EmptyString, t) =>
          if is_slash c then (String c EmptyString, t) else (EmptyString, String c t)
      | (h, t) => (String c h, t)
      end
  end.

(** [posixpath.split]: the head loses its trailing slashes unless it
    consists of slashes only. *)
Definition split (p : string) : string * string :=
  let '(head, tail) := cut_last_slash p in
  (if negb (bool_decide (head = "")) && negb (all_slash head)
   then rstrip_slash head else head,
   tail).

(** [posixpath.dirname] runs the same code and returns the head. *)
Definition dirname (p : string) : string := fst (split p).

(** [posixpath.join(a, b)] for one trailing component. *)
Definition join (a b : string) : string :=
  if starts_with_slash b then b
  else if bool_decide (a = "") || ends_with_slash a then a +:+ b
  else a +:+ "/" +:+ b.

(** The pieces of [p] between slashes, empty ones included. *)
Fixpoint tokens (p : string) : list string :=
  match p with
  | EmptyString => [EmptyString]
  | String c s =>
      if is_slash c then EmptyString :: tokens s
      else match tokens s with
           | t :: ts => String c t :: ts
           | [] => [String c EmptyString]
           end
  end.

(** The components the kernel walks: the non-empty pieces. *)
Definition segments (p : string) : list string :=
  filter (λ t, t ≠ "") (tokens p).

(** [n * '/'] *)
Fixpoint slashes (n : nat) : string :=
  match n with
  | O => ""
  | S n => String "/" (slashes n)
  end.

(** Whether [p] contains a slash. *)
Fixpoint has_slash (p : string) : bool :=
  match p with
  | EmptyString => false
  | String c s => is_slash c || has_slash s
  end.

(** Whether [p] contains a NUL byte. *)
Fixpoint has_nul (p : string) : bool :=
  match p with
  | EmptyString => false
  | String c s => bool_decide (c = "000"%char) || has_nul s
  end.

(** The limits of the host on a component and on a whole path, in bytes
    (the path limit counts the terminating NUL). *)
Definition NAME_MAX : nat := 255.
Definition PATH_MAX : nat := 4096.
Definition ENAMETOOLONG : nat := 36.

(** A single path component that names an entry: not empty, no slash, no
    NUL, neither [.] nor [..], and within the limit on names. *)
Definition plain_name (s : string) : Prop :=
  has_slash s = false ∧ s ≠ "" ∧ s ≠ "." ∧ s ≠ ".."
  ∧ has_nul s = false ∧ (String.length s ≤ NAME_MAX)%nat.

End PosixPath.


(** ** The file system the process sees

    A POSIX tree of directories and regular files without symbolic or
    hard links, keyed by the list of component names from the root.  Paths
    and contents are byte strings: a text is taken as its encoding under
    the codec of the host, and a text that codec cannot encode is one of
    the writes that fail.  Each directory carries the write and the search
    permission of the running process, each regular file its write
    permission.  [cwd] is the working directory of the process, and
    [platform_of] is what the host decides: the permissions that the umask
    leaves to a new entry, whether there is room for one, and the writes
    that fail. *)

Module FS.
Import PosixPath.

Inductive node : Type :=
| Dir (writable searchable : bool)
| File (writable : bool) (content : string).

(** [new_writable] and [new_searchable]: whether the umask leaves the
    owner's write and search bits to a new entry.  [create_fault]: the
    exception with which the host refuses any new entry (an [OSError] for
    a full disk or a spent quota).  [write_fault content]:
    the exception with which writing [content] to an open file fails
    ([UnicodeEncodeError] for a text the codec of the host cannot encode,
    an [OSError] for a full disk), and what the file is left with. *)
Record platform : Type := mkPlatform {
  new_writable : bool;
  new_searchable : bool;
  create_fault : option exn;
  write_fault : string → option (exn * string)
}.

Record filesystem : Type := mkFS {
  nodes : gmap (list string) node;
  cwd : list string;
  platform_of : platform
}.

(** One component of a path walk. *)
Definition step (cur : list string) (seg : string) : list string :=
  if bool_decide (seg = ".") then cur
  else if bool_decide (seg = "..") then removelast cur
  else cur ++ [seg].

(** Path walk: every component is looked up in a directory that exists
    and may be searched, and has to fit the limit on names. *)
Fixpoint walk (ns : gmap (list string) node) (cur : list string)
    (segs : list string) : pyresult (list string) :=
  match segs with
  | [] => Return cur
  | seg :: rest =>
      match ns !! cur with
      | Some (Dir _ true) =>
          if bool_decide (String.length seg ≤ NAME_MAX)%nat
          then walk ns (step cur seg) rest
          else Raise (OSError ENAMETOOLONG)
      | Some (Dir _ false) => Raise PermissionError
      | Some (File _ _) => Raise NotADirectoryError
      | None => Raise FileNotFoundError
      end
  end.

(** What every system call does with a path first: Python refuses an
    embedded NUL, the kernel an empty or overlong path. *)
Definition resolve (fs : filesystem) (p : string) : pyresult (list string) :=
  if has_nul p then Raise ValueError
  else if bool_decide (p = "") then Raise FileNotFoundError
  else if bool_decide (PATH_MAX ≤ String.length p)%nat
  then Raise (OSError ENAMETOOLONG)
  else walk (nodes fs) (if starts_with_slash p then [] else cwd fs) (segments p).

(** [os.stat]: a trailing slash demands a directory. *)
Definition stat (fs : filesystem) (p : string) : pyresult node :=
  match resolve fs p with
  | Raise e => Raise e
  | Return k =>
      match nodes fs !! k with
      | None => Raise FileNotFoundError
      | Some (File w c) =>
          if ends_with_slash p then Raise NotADirectoryError else Return (File w c)
      | Some (Dir w x) => Return (Dir w x)
      end
  end.

(** [os.path.exists] and [os.path.isdir]: false on [OSError] and on
    [ValueError]. *)
Definition exists_ (fs : filesystem) (p : string) : bool :=
  match stat fs p with
  | Return _ => true
  | Raise _ => false
  end.

Definition isdir (fs : filesystem) (p : string) : bool :=
  match stat fs p with
  | Return (Dir _ _) => true
  | _ => false
  end.

(** What a regular file at [p] holds, if there is one. *)
Definition read_file (fs : filesystem) (p : string) : option string :=
  match stat fs p with
  | Return (File _ c) => Some c
  | _ => None
  end.

(** The file system with other entries. *)
Definition with_nodes (fs : filesystem) (ns : gmap (list string) node)
    : filesystem :=
  mkFS ns (cwd fs) (platform_of fs).

(** Creating the entry [k] needs a writable parent directory and room
    on the host. *)
Definition create (fs : filesystem) (k : list string) (n : node)
    : pyresult unit * filesystem :=
  match nodes fs !! removelast k with
  | Some (Dir true _) =>
      match create_fault (platform_of fs) with
      | None => (Return (), with_nodes fs (<[k := n]> (nodes fs)))
      | Some e => (Raise e, fs)
      end
  | Some (Dir false _) => (Raise PermissionError, fs)
  | Some (File _ _) => (Raise NotADirectoryError, fs)
  | None => (Raise FileNotFoundError, fs)
  end.

(** [os.mkdir(p)]: the new directory has the permissions the umask
    leaves. *)
Definition mkdir (fs : filesystem) (p : string) : pyresult unit * filesystem :=
  match resolve fs p with
  | Raise e => (Raise e, fs)
  | Return k =>
      match nodes fs !! k with
      | Some _ => (Raise FileExistsError, fs)
      | None =>
          create fs k (Dir (new_writable (platform_of fs))
                           (new_searchable (platform_of fs)))
      end
  end.

(** [open(p, "w")]: an existing regular file is truncated, a missing one
    is created empty; the result is the entry that is now open. *)
Definition open_w (fs : filesystem) (p : string)
    : pyresult (list string) * filesystem :=
  match resolve fs p with
  | Raise e => (Raise e, fs)
  | Return k =>
      match nodes fs !! k with
      | Some (Dir _ _) => (Raise IsADirectoryError, fs)
      | Some (File w _) =>
          if ends_with_slash p then (Raise NotADirectoryError, fs)
          else if w
          then (Return k, with_nodes fs (<[k := File w ""]> (nodes fs)))
          else (Raise PermissionError, fs)
      | None =>
          if ends_with_slash p then (Raise IsADirectoryError, fs)
          else
            match create fs k (File (new_writable (platform_of fs)) "") with
            | (Return _, fs') => (Return k, fs')
            | (Raise e, fs') => (Raise e, fs')
            end
      end
  end.

(** [f.write(content)] and the close at the end of the [with] block, on
    the open entry [k] (a regular file, as [open_w] returns it; a stale
    entry would be [EBADF]). *)
Definition write_close (fs : filesystem) (k : list string) (content : string)
    : pyresult unit * filesystem :=
  match nodes fs !! k with
  | Some (File w _) =>
      match write_fault (platform_of fs) content with
      | None => (Return (), with_nodes fs (<[k := File w content]> (nodes fs)))
      | Some (e, rest) => (Raise e, with_nodes fs (<[k := File w rest]> (nodes fs)))
      end
  | _ => (Raise (OSError 9), fs)
  end.

(** [with open(p, "w") as f: f.write(content)] *)
Definition open_write (fs : filesystem) (p content : string)
    : pyresult unit * filesystem :=
  match open_w fs p with
  | (Raise e, fs') => (Raise e, fs')
  | (Return k, fs') => write_close fs' k content
  end.

(** The tail of [os.makedirs]:
    [try: mkdir(name) except OSError: if not exist_ok or not isdir(name): raise]
    with [exist_ok=True]. *)
Definition mkdir_exist_ok (fs : filesystem) (name : string)
    : pyresult unit * filesystem :=
  match mkdir fs name with
  | (Return u, fs') => (Return u, fs')
  | (Raise e, fs') =>
      if is_oserror e && isdir fs' name then (Return (), fs') else (Raise e, fs')
  end.

(** [os.makedirs(name, exist_ok=True)].  The recursion is on the head of
    [name]; [fuel] bounds its depth, and [None] means the bound was hit. *)
Fixpoint makedirs_fuel (fuel : nat) (fs : filesystem) (name : string)
    : option (pyresult unit * filesystem) :=
  match fuel with
  | O => None
  | S fuel' =>
      let '(head, tail) := split name in
      let '(head, tail) :=
        if bool_decide (tail = "") then split head else (head, tail) in
      if negb (bool_decide (head = "")) && negb (bool_decide (tail = ""))
         && negb (exists_ fs head)
      then
        match makedirs_fuel fuel' fs head with
        | None => None
        | Some (Raise FileExistsError, fs1) | Some (Return _, fs1) =>
            if bool_decide (tail = ".") then Some (Return (), fs1)
            else Some (mkdir_exist_ok fs1 name)
        | Some (Raise e, fs1) => Some (Raise e, fs1)
        end
      else Some (mkdir_exist_ok fs name)
  end.

(** Every recursive call is on a strictly shorter string, so the length
    of [name] is fuel enough (see [makedirs_fuel_enough]); the [None]
    branch below is never taken. *)
Definition makedirs (fs : filesystem) (name : string)
    : pyresult unit * filesystem :=
  match makedirs_fuel (S (String.length name)) fs name with
  | Some r => r
  | None => (Raise FileNotFoundError, fs)
  end.

(** [ns'] has every directory of [ns]. *)
Definition dirs_preserved (ns ns' : gmap (list string) node) : Prop :=
  ∀ k w x, ns !! k = Some (Dir w x) → ns' !! k = Some (Dir w x).

End FS.

(** ** The world of a run and the tool monad *)

Module Tools.
Import PosixPath.
Export FS.

(** What a tool sees through its [tool_context] argument: the shared state
    store, the attribute [exit_loop] that the tool of that name sets
    ([false] while the attribute has not been set), and the loop control
    signal that the library keeps in the context
    ([tool_context.actions.escalate]), which is what its loop composite
    looks at. *)
Record tool_context : Type := mkCtx {
  state : gmap string pyval;
  ctx_exit_loop : bool;
  ctx_escalate : bool
}.

Record world : Type := mkWorld {
  ctx : tool_context;
  files : filesystem;
  log : list string
}.

(** A tool body: it reads and updates the world and either returns a
    value or raises. *)
Definition M (A : Type) : Type := world → pyresult A * world.

#[export] Instance M_ret : MRet M := λ A a w, (Return a, w).

#[export] Instance M_bind : MBind M := λ A B f m w,
  match m w with
  | (Return a, w') => f a w'
  | (Raise e, w') => (Raise e, w')
  end.

Definition lift_result {A} (r : pyresult A) : M A := λ w, (r, w).

(** [tool_context.state.get(key, default)] *)
Definition state_get (key : string) (default : pyval) : M pyval :=
  λ w, (Return (dict_get (state (ctx w)) key default), w).

(** [tool_context.state[key] = v] *)
Definition state_setitem (key : string) (v : pyval) : M unit :=
  λ w, (Return (),
        mkWorld (mkCtx (<[key := v]> (state (ctx w))) (ctx_exit_loop (ctx w))
                       (ctx_escalate (ctx w)))
                (files w) (log w)).

(** [tool_context.exit_loop = b] *)
Definition set_exit_loop (b : bool) : M unit :=
  λ w, (Return (),
        mkWorld (mkCtx (state (ctx w)) b (ctx_escalate (ctx w))) (files w) (log w)).

(** [logging.info(msg)] *)
Definition logging_info (msg : string) : M unit :=
  λ w, (Return (), mkWorld (ctx w) (files w) (log w ++ [msg])).

Definition with_files (op : filesystem → pyresult unit * filesystem) : M unit :=
  λ w, let '(r, fs') := op (files w) in (r, mkWorld (ctx w) fs' (log w)).

Definition os_makedirs (name : string) : M unit :=
  with_files (λ fs, makedirs fs name).

Definition open_w_write (path content : string) : M unit :=
  with_files (λ fs, open_write fs path content).

(** The dictionaries the tools return. *)
Definition status_dict (s : string) : list (string * string) := [("status", s)].

(** *** The three tools of the module *)

Definition append_to_state (field response : string) : M (list (string * string)) :=
  existing_state ← state_get field (PList []);
  v ← lift_result (py_add existing_state (PList [PStr response]));
  state_setitem field v;;
  logging_info ("[Added to " +:+ field +:+ "] " +:+ response);;
  mret (status_dict "success").

Definition write_file (directory filename content : string)
    : M (list (string * string)) :=
  let target_path := join directory filename in
  os_makedirs (dirname target_path);;
  open_w_write target_path content;;
  logging_info ("File written to " +:+ target_path);;
  mret (status_dict "success").

Definition exit_loop : M (list (string * string)) :=
  set_exit_loop true;;
  mret (status_dict "exited loop").

(** *** Tool invocations *)

(** One invocation of a tool by a reasoning agent, with its arguments.
    [call_wikipedia] is the external query. *)
Inductive tool_call : Type :=
| call_wikipedia (query : string)
| call_append_to_state (field response : string)
| call_write_file (directory filename content : string)
| call_exit_loop.

(** The effect of one invocation on the world.  What the tool returns or
    raises goes back to the calling agent; the external query touches
    nothing the tools of this module can observe. *)
Definition invoke (c : tool_call) (w : world) : world :=
  match c with
  | call_wikipedia _ => w
  | call_append_to_state field response => (append_to_state field response w).2
  | call_write_file directory filename content =>
      (write_file directory filename content w).2
  | call_exit_loop => (exit_loop w).2
  end.

Definition invoke_all (cs : list tool_call) (w : world) : world :=
  fold_left (λ w c, invoke c w) cs w.

(** Two invocations that do not compete: not two appends to one field, and
    not two file writes. *)
Definition independent (c1 c2 : tool_call) : Prop :=
  match c1, c2 with
  | call_append_to_state f1 _, call_append_to_state f2 _ => f1 ≠ f2
  | call_write_file _ _ _, call_write_file _ _ _ => False
  | _, _ => True
  end.

(** What an invocation does to the context, as a function of the context,
    and to the file system, as a function of the file system. *)
Definition ctx_after (c : tool_call) (x : tool_context) : tool_context :=
  match c with
  | call_append_to_state field response =>
      match py_add (dict_get (state x) field (PList [])) (PList [PStr response]) with
      | Return v => mkCtx (<[field := v]> (state x)) (ctx_exit_loop x) (ctx_escalate x)
      | Raise _ => x
      end
  | call_exit_loop => mkCtx (state x) true (ctx_escalate x)
  | _ => x
  end.

Definition files_after (c : tool_call) (fs : filesystem) : filesystem :=
  match c with
  | call_write_file directory filename content =>
      match makedirs fs (dirname (join directory filename)) with
      | (Return _, fs1) => (open_write fs1 (join directory filename) content).2
      | (Raise _, fs1) => fs1
      end
  | _ => fs
  end.

(** [append_to_state] called once per response, in order, on one field. *)
Definition append_each (field : string) (responses : list string) (w : world)
    : world :=
  fold_left (λ w r, (append_to_state field r w).2) responses w.

(** The claim that a key of the store holds a bare string. *)
Definition holds_string (w : world) (key : string) : Prop :=
  ∃ s, state (ctx w) !! key = Some (PStr s).

End Tools.

(** ** The agent graph *)

Module Agents.

(** The tools an agent can be given.  [wikipedia] is the
    [LangchainTool] around [WikipediaQueryRun]; the other three are the
    functions of module [Tools]. *)
Inductive tool : Type :=
| wikipedia
| tool_append_to_state
| tool_write_file
| tool_exit_loop.

#[export] Instance tool_eq_dec : EqDecision tool.
Proof. solve_decision. Defined.

(** [retry_options={"initial_delay": .., "attempts": ..}] *)
Record retry_options : Type := mkRetry {
  initial_delay : nat;
  attempts : nat
}.

(** [Gemini(model=.., retry_options=..)] *)
Record Gemini : Type := mkGemini {
  model : option string;
  retry : retry_options
}.

(** The four kinds of agent the module instantiates. *)
Inductive agent : Type :=
| Agent (name : string) (llm : Gemini) (description instruction : string)
    (tools : list tool) (sub_agents : list agent)
| SequentialAgent (name description : string) (sub_agents : list agent)
| ParallelAgent (name description : string) (sub_agents : list agent)
| LoopAgent (name description : string) (sub_agents : list agent)
    (max_iterations : nat).

Definition agent_name (u : agent) : string :=
  match u with
  | Agent n _ _ _ _ _ => n
  | SequentialAgent n _ _ => n
  | ParallelAgent n _ _ => n
  | LoopAgent n _ _ _ => n
  end.

(** The names of all the agents of a graph, composites included. *)
Fixpoint all_names (u : agent) : list string :=
  match u with
  | Agent n _ _ _ _ l => n :: flat_map all_names l
  | SequentialAgent n _ l => n :: flat_map all_names l
  | ParallelAgent n _ l => n :: flat_map all_names l
  | LoopAgent n _ l _ => n :: flat_map all_names l
  end.

Definition sub_agents_of (u : agent) : list agent :=
  match u with
  | Agent _ _ _ _ _ l => l
  | SequentialAgent _ _ l => l
  | ParallelAgent _ _ l => l
  | LoopAgent _ _ l _ => l
  end.

(** The reasoning-backed agents of a graph, parents before children. *)
Fixpoint llm_agents (u : agent) : list agent :=
  match u with
  | Agent _ _ _ _ _ l => u :: flat_map llm_agents l
  | SequentialAgent _ _ l => flat_map llm_agents l
  | ParallelAgent _ _ l => flat_map llm_agents l
  | LoopAgent _ _ l _ => flat_map llm_agents l
  end.

Definition tools_of (u : agent) : list tool :=
  match u with
  | Agent _ _ _ _ t _ => t
  | _ => []
  end.

Definition retry_of (u : agent) : option retry_options :=
  match u with
  | Agent _ g _ _ _ _ => Some (retry g)
  | _ => None
  end.

Section Graph.

(** [model_name = os.getenv("MODEL")] *)
Variable model_name : option string.

Definition admirer_researcher : agent :=
  Agent "admirer_researcher"
    (mkGemini model_name (mkRetry 1 2))
    "Researches the positive aspects and achievements of a historical topic."
    "
    You are The Admirer. Your task is to research the positive aspects, successes, and achievements of the topic: { TOPIC? }.
    - Use your Wikipedia tool to search for information. Append terms like 'achievements', 'successes', 'positive impact' to your search query to get relevant results.
    - Use the 'append_to_state' tool to save your findings to the 'pos_data' field.
    - Summarize the positive findings.
    "
    [wikipedia; tool_append_to_state]
    [].

Definition critic_researcher : agent :=
  Agent "critic_researcher"
    (mkGemini model_name (mkRetry 1 2))
    "Researches the negative aspects and controversies of a historical topic."
    "
    You are The Critic. Your task is to research the failures, controversies, and negative aspects of the topic: { TOPIC? }.
    - Use your Wikipedia tool to search for information. Append terms like 'controversy', 'failures', 'criticism', 'negative impact' to your search query to get relevant results.
    - Use the 'append_to_state' tool to save your findings to the 'neg_data' field.
    - Summarize the negative findings.
    "
    [wikipedia; tool_append_to_state]
    [].

Definition investigation_team : agent :=
  ParallelAgent "investigation_team"
    "Conducts parallel research on positive and negative aspects of a topic."
    [admirer_researcher; critic_researcher].

Definition judge : agent :=
  Agent "judge"
    (mkGemini model_name (mkRetry 1 2))
    "Judges the collected data and decides if more research is needed or to conclude."
    "
    You are The Judge. Review the evidence presented.
    Positive Evidence: { pos_data? }
    Negative Evidence: { neg_data? }

    - Your task is to check if the information for both sides is sufficient and balanced.
    - If either 'pos_data' or 'neg_data' is empty or significantly less detailed than the other, you must order more research.
    - To order more research, provide a summary of what is missing and what needs to be found. The loop will then restart the investigation.
    - If you find the information on both sides to be sufficient and balanced, you MUST use the 'exit_loop' tool to conclude the trial.
    "
    [tool_exit_loop]
    [].

Definition trial_and_review : agent :=
  LoopAgent "trial_and_review"
    "Repeatedly investigates and judges until the data is balanced."
    [investigation_team; judge]
    3.

Definition verdict_writer : agent :=
  Agent "verdict_writer"
    (mkGemini model_name (mkRetry 1 2))
    "Summarizes the findings and writes the final verdict to a file."
    "
    You are the Court Scribe. Your final duty is to write the verdict report.
    Topic: { TOPIC? }
    Positive Evidence: { pos_data? }
    Negative Evidence: { neg_data? }

    - Create a balanced report summarizing and comparing the facts from both the positive and negative evidence.
    - Use the 'write_file' tool to save your report.
    - The filename should be the topic name with '.txt' extension.
    - The directory should be 'verdicts'.
    - The content should be your full, balanced report.
    "
    [tool_write_file]
    [].

Definition historical_court : agent :=
  SequentialAgent "historical_court"
    "Orchestrates the entire historical court process from inquiry to verdict."
    [trial_and_review; verdict_writer].

Definition root_agent : agent :=
  Agent "inquiry_clerk"
    (mkGemini model_name (mkRetry 1 2))
    "Starts the historical court process by getting a topic from the user."
    "
    - You are the Inquiry Clerk of the Historical Court.
    - Greet the user and ask them to name a historical figure or event to be analyzed.
    - When they respond, use the 'append_to_state' tool to store their response in the 'TOPIC' state key.
    - Then, transfer control to the 'historical_court' agent to begin the proceedings.
    "
    [tool_append_to_state]
    [historical_court].

End Graph.

End Agents.

(** ** Running the graph *)

Module Runner.
Import Tools.
Import Agents.

Definition tool_of_call (c : tool_call) : tool :=
  match c with
  | call_wikipedia _ => wikipedia
  | call_append_to_state _ _ => tool_append_to_state
  | call_write_file _ _ _ => tool_write_file
  | call_exit_loop => tool_exit_loop
  end.

Inductive outcome : Type :=
| Completed
| Failed (who : string).

Inductive event : Type :=
| ev_iteration (loop : string) (k : nat)
| ev_tool (who : string) (c : tool_call)
| ev_failed (who : string).

Definition replay_event (w : world) (e : event) : world :=
  match e with
  | ev_tool _ c => invoke c w
  | _ => w
  end.

Definition replay (evs : list event) (w : world) : world :=
  fold_left replay_event evs w.

(** What one activation of a reasoning agent does: the tool invocations
    it makes, in order, and whether its reasoning call then fails for good
    (all retry attempts used). *)
Record reply : Type := mkReply {
  calls : list tool_call;
  failed : bool
}.

(** Everything the graph does not determine: the reasoning of each agent
    activation (numbered by [turn]) and the order in which the tool
    invocations of concurrent agents land. *)
Record oracle : Type := mkOracle {
  ask : nat → string → world → reply;
  schedule : nat → string → list nat
}.

Record result : Type := mkResult {
  res_outcome : outcome;
  res_turn : nat;
  res_world : world;
  res_events : list event
}.

(** Merge of the event queues of concurrent children: [sched] names the
    queue that moves next; what is left when it runs out is drained in
    declared order. *)
Fixpoint interleave {A} (sched : list nat) (queues : list (list A)) : list A :=
  match sched with
  | [] => concat queues
  | i :: sched' =>
      match queues !! i with
      | Some (x :: q) => x :: interleave sched' (<[i := q]> queues)
      | _ => interleave sched' queues
      end
  end.

Fixpoint first_failure (os : list outcome) : outcome :=
  match os with
  | [] => Completed
  | Completed :: os' => first_failure os'
  | Failed who :: _ => Failed who
  end.

Section Run.

Variable orc : oracle.

(** Modelled from the spec: the sequential composite of google.adk, which
    is not part of this module (4.3: each child once, in declared order, on
    the same store; a child's failure aborts the rest and propagates). *)
Fixpoint run_sequence (run : agent → nat → world → result)
    (l : list agent) (t : nat) (w : world) : result :=
  match l with
  | [] => mkResult Completed t w []
  | c :: l' =>
      let r := run c t w in
      match res_outcome r with
      | Failed _ => r
      | Completed =>
          let r' := run_sequence run l' (res_turn r) (res_world r) in
          mkResult (res_outcome r') (res_turn r') (res_world r')
                   (res_events r ++ res_events r')
      end
  end.

(** Modelled from the spec: the parallel composite of google.adk (4.4: all
    children run against the same store and the composite returns when all
    have completed; of the two failure policies the spec leaves open this is
    wait-for-all).  Each child starts from the store as it was on entry;
    tool invocations are atomic and land in the scheduled order. *)
Fixpoint run_children (run : agent → nat → world → result)
    (l : list agent) (t : nat) (w : world) : list result :=
  match l with
  | [] => []
  | c :: l' =>
      let r := run c t w in
      r :: run_children run l' (res_turn r) w
  end.

(** Modelled from the spec: the join of the parallel composite (4.4): the
    events of the children merged by the schedule, their effects applied in
    that order, the first failure among the children as the outcome. *)
Definition run_parallel (run : agent → nat → world → result)
    (name : string) (l : list agent) (t : nat) (w : world) : result :=
  let rs := run_children run l (S t) w in
  let evs := interleave (schedule orc t name) (map res_events rs) in
  mkResult (first_failure (map res_outcome rs))
           (default (S t) (last (map res_turn rs)))
           (replay evs w) evs.

(** Modelled from the spec: the loop composite of google.adk (4.5: each
    iteration runs the child sequence once; the loop terminates when the
    loop control signal is found set after an iteration or when the
    iteration count reaches the maximum, whichever comes first; a child's
    failure propagates).  The signal is the library's own, [ctx_escalate];
    the attribute that [exit_loop] assigns is a different one. *)
Fixpoint run_loop (body : nat → world → result) (name : string)
    (remaining k : nat) (t : nat) (w : world) : result :=
  match remaining with
  | O => mkResult Completed t w []
  | S remaining' =>
      let r := body t w in
      let evs := ev_iteration name k :: res_events r in
      match res_outcome r with
      | Failed who => mkResult (Failed who) (res_turn r) (res_world r) evs
      | Completed =>
          if ctx_escalate (ctx (res_world r))
          then mkResult Completed (res_turn r) (res_world r) evs
          else
            let r' := run_loop body name remaining' (S k) (res_turn r) (res_world r) in
            mkResult (res_outcome r') (res_turn r') (res_world r')
                     (evs ++ res_events r')
      end
  end.

(** Modelled from the spec: one activation of a reasoning agent of
    google.adk (4.2, 4.7: it invokes zero or more of the tools it holds;
    a reasoning failure that outlives the retries is fatal; the root hands
    over to its sub-agent once it is done). *)
Definition run_llm (run_subs : nat → world → result)
    (name : string) (tools : list tool) (t : nat) (w : world) : result :=
  let rep := ask orc t name w in
  let evs := map (ev_tool name)
                 (filter (λ c, tool_of_call c ∈ tools) (calls rep)) in
  let w1 := replay evs w in
  if failed rep
  then mkResult (Failed name) (S t) w1 (evs ++ [ev_failed name])
  else
    let r := run_subs (S t) w1 in
    mkResult (res_outcome r) (res_turn r) (res_world r) (evs ++ res_events r).

(** Modelled from the spec: the runner of google.adk that dispatches on
    the kind of agent (2, 4.2-4.5).  [t] numbers the activations, so that
    the oracle may answer each of them differently. *)
Fixpoint run (u : agent) (t : nat) (w : world) {struct u} : result :=
  match u with
  | Agent name _ _ _ tools subs =>
      run_llm (run_sequence run subs) name tools t w
  | SequentialAgent _ _ subs => run_sequence run subs t w
  | ParallelAgent name _ subs => run_parallel run name subs t w
  | LoopAgent name _ subs max_iterations =>
      run_loop (run_sequence run subs) name max_iterations 1 t w
  end.

End Run.

(** *** Reading a run *)

(** The loops of a graph, by name. *)
Fixpoint loop_names (u : agent) : list string :=
  match u with
  | LoopAgent n _ l _ => n :: flat_map loop_names l
  | Agent _ _ _ _ _ l => flat_map loop_names l
  | SequentialAgent _ _ l => flat_map loop_names l
  | ParallelAgent _ _ l => flat_map loop_names l
  end.

(** The reasoning agents of a graph, by name, and which tool each holds. *)
Fixpoint llm_names (u : agent) : list string :=
  match u with
  | Agent n _ _ _ _ l => n :: flat_map llm_names l
  | SequentialAgent _ _ l => flat_map llm_names l
  | ParallelAgent _ _ l => flat_map llm_names l
  | LoopAgent _ _ l _ => flat_map llm_names l
  end.

Fixpoint holdings (u : agent) : list (string * tool) :=
  match u with
  | Agent n _ _ _ tl l => map (λ x, (n, x)) tl ++ flat_map holdings l
  | SequentialAgent _ _ l => flat_map holdings l
  | ParallelAgent _ _ l => flat_map holdings l
  | LoopAgent _ _ l _ => flat_map holdings l
  end.

(** An event that the graph [u] can produce: a tool invoked by a reasoning
    agent of [u] that holds it, the failure of such an agent, an iteration
    of a loop of [u]. *)
Definition event_from (u : agent) (e : event) : Prop :=
  match e with
  | ev_tool a c => In (a, tool_of_call c) (holdings u)
  | ev_failed a => In a (llm_names u)
  | ev_iteration n _ => In n (loop_names u)
  end.

(** A result that is consistent with the world [w] it started from: the
    final world is the replay of the events, every event satisfies [E], and
    a failure names an agent in [N]. *)
Definition sound (E : event → Prop) (N : string → Prop) (w : world) (r : result)
    : Prop :=
  res_world r = replay (res_events r) w
  ∧ Forall E (res_events r)
  ∧ ∀ who, res_outcome r = Failed who → N who.

(** The iterations of loop [name] that a run started, in order. *)
Fixpoint iteration_indices (name : string) (evs : list event) : list nat :=
  match evs with
  | [] => []
  | ev_iteration n k :: r =>
      if bool_decide (n = name) then k :: iteration_indices name r
      else iteration_indices name r
  | _ :: r => iteration_indices name r
  end.

Definition is_write (e : event) : Prop :=
  match e with
  | ev_tool _ (call_write_file _ _ _) => True
  | _ => False
  end.

Definition is_exit (e : event) : Prop :=
  match e with
  | ev_tool _ call_exit_loop => True
  | _ => False
  end.

(** An event that neither starts an iteration, nor ends the loop, nor
    writes a file. *)
Definition plain (e : event) : Prop :=
  match e with
  | ev_tool _ (call_wikipedia _) => True
  | ev_tool _ (call_append_to_state _ _) => True
  | ev_failed _ => True
  | _ => False
  end.

End Runner.

(** ** Sample worlds and behaviours *)

Module Samples.
Import Tools.
Import Agents.
Import Runner.

(** A host whose umask leaves the owner's bits and where no write fails. *)
Definition kind_platform : platform := mkPlatform true true None (λ _, None).

(** A read-only root, a writable working directory [/home], nothing else. *)
Definition home_fs : filesystem :=
  mkFS (<[ ["home"] := Dir true true ]> (<[ [] := Dir false true ]> ∅)) ["home"]
       kind_platform.

(** The world at the start of a run: empty store, flag unset, empty log. *)
Definition fresh_world : world := mkWorld (mkCtx ∅ false false) home_fs [].

(** A store in which [TOPIC] holds a bare string. *)
Definition string_topic_world : world :=
  mkWorld (mkCtx (<[ "TOPIC" := PStr "Example" ]> ∅) false false) home_fs [].

(** A store with one finding on each side. *)
Definition findings_world : world :=
  mkWorld (mkCtx (<[ "pos_data" := PList [PStr "won"] ]>
                    (<[ "neg_data" := PList [PStr "lost"] ]> ∅)) false false)
          home_fs [].

(** A working directory that already holds a read-only report. *)
Definition readonly_report_fs : filesystem :=
  mkFS (<[ ["home"; "verdicts"; "Example.txt"] := File false "old" ]>
          (<[ ["home"; "verdicts"] := Dir true true ]> (nodes home_fs)))
       ["home"] kind_platform.

(** The clerk stores the topic; each researcher files one finding per
    round; the judge is content once each side has [rounds] findings; the
    scribe writes the report. *)
Definition findings (w : world) (key : string) : nat :=
  match state (ctx w) !! key with
  | Some (PList l) => length l
  | _ => 0
  end.

Definition court_oracle (rounds : nat) : oracle :=
  mkOracle
    (λ t name w,
       if bool_decide (name = "inquiry_clerk")
       then mkReply [call_append_to_state "TOPIC" "Example"] false
       else if bool_decide (name = "admirer_researcher")
       then mkReply [call_wikipedia "Example achievements";
                     call_append_to_state "pos_data" "won"] false
       else if bool_decide (name = "critic_researcher")
       then mkReply [call_wikipedia "Example criticism";
                     call_append_to_state "neg_data" "lost"] false
       else if bool_decide (name = "judge")
       then mkReply (if Nat.leb rounds (findings w "pos_data")
                        && Nat.leb rounds (findings w "neg_data")
                     then [call_exit_loop] else []) false
       else mkReply [call_write_file "verdicts" "Example.txt" "report"] false)
    (λ _ _, [1; 0; 0; 1]).

(** The same court, but the critic's reasoning call fails for good. *)
Definition failing_critic_oracle : oracle :=
  mkOracle
    (λ t name w,
       if bool_decide (name = "critic_researcher") then mkReply [] true
       else ask (court_oracle 1) t name w)
    (schedule (court_oracle 1)).

End Samples.

(** * Properties of the tools *)

Module AppendFacts.
Import Tools.
Import Samples.

(** The body of [append_to_state], step by step. *)
Lemma append_to_state_eq (field response : string) (w : world) :
  append_to_state field response w =
  match py_add (dict_get (state (ctx w)) field (PList [])) (PList [PStr response]) with
  | Return v =>
      (Return (status_dict "success"),
       mkWorld (mkCtx (<[field := v]> (state (ctx w))) (ctx_exit_loop (ctx w))
                      (ctx_escalate (ctx w)))
               (files w)
               (log w ++ ["[Added to " +:+ field +:+ "] " +:+ response]))
  | Raise e => (Raise e, w)
  end.
Proof.
  unfold append_to_state, mbind, M_bind, state_get, lift_result.
  destruct (py_add _ _); reflexivity.
Qed.

Lemma py_add_list_r (v : pyval) (k : list pyval) :
  py_add v (PList k) =
  match v with
  | PList l => Return (PList (l ++ k))
  | _ => Raise TypeError
  end.
Proof. destruct v; reflexivity. Qed.

Lemma append_to_state_list (field response : string) (w : world) (l : list pyval) :
  dict_get (state (ctx w)) field (PList []) = PList l →
  append_to_state field response w =
  (Return (status_dict "success"),
   mkWorld (mkCtx (<[field := PList (l ++ [PStr response])]> (state (ctx w)))
                  (ctx_exit_loop (ctx w)) (ctx_escalate (ctx w)))
           (files w)
           (log w ++ ["[Added to " +:+ field +:+ "] " +:+ response])).
Proof. intros H. rewrite append_to_state_eq, H. reflexivity. Qed.

Lemma append_to_state_not_list (field response : string) (w : world) :
  is_list (dict_get (state (ctx w)) field (PList [])) = false →
  append_to_state field response w = (Raise TypeError, w).
Proof.
  intros H. rewrite append_to_state_eq, py_add_list_r.
  destruct (dict_get _ _ _); try reflexivity. discriminate.
Qed.

(** The store after [append_to_state]: other keys keep their value. *)
Lemma append_to_state_other (field response key : string) (w : world) :
  key ≠ field →
  state (ctx (append_to_state field response w).2) !! key = state (ctx w) !! key.
Proof.
  intros Hne. rewrite append_to_state_eq.
  destruct (py_add _ _); simpl; [|reflexivity].
  by rewrite lookup_insert_ne.
Qed.

Lemma append_to_state_files (field response : string) (w : world) :
  files (append_to_state field response w).2 = files w.
Proof. rewrite append_to_state_eq. by destruct (py_add _ _). Qed.

Lemma append_to_state_flag (field response : string) (w : world) :
  ctx_exit_loop (ctx (append_to_state field response w).2) = ctx_exit_loop (ctx w).
Proof. rewrite append_to_state_eq. by destruct (py_add _ _). Qed.

(** A key that holds a list keeps it as a prefix through [append_to_state]. *)
Lemma append_to_state_grows (field response key : string) (w : world) (l : list pyval) :
  state (ctx w) !! key = Some (PList l) →
  ∃ ext, state (ctx (append_to_state field response w).2) !! key
         = Some (PList (l ++ ext)).
Proof.
  intros Hk. destruct (decide (key = field)) as [->|Hne].
  - rewrite (append_to_state_list _ _ _ l); [|by unfold dict_get; rewrite Hk].
    exists [PStr response]. simpl. by rewrite lookup_insert_eq.
  - exists []. rewrite append_to_state_other by done. by rewrite app_nil_r.
Qed.

End AppendFacts.

(** ** Facts about POSIX paths *)

Module PathFacts.
Import PosixPath.

(** [os.path] on a few paths. *)
Example split_examples :
  split "verdicts/Example.txt" = ("verdicts", "Example.txt")
  ∧ split "/Example.txt" = ("/", "Example.txt")
  ∧ split "a//b//" = ("a//b", "")
  ∧ split "Example.txt" = ("", "Example.txt")
  ∧ split "//x" = ("//", "x").
Proof. repeat split. Qed.

Example join_examples :
  join "verdicts" "Example.txt" = "verdicts/Example.txt"
  ∧ join "verdicts/" "Example.txt" = "verdicts/Example.txt"
  ∧ join "" "Example.txt" = "Example.txt"
  ∧ join "verdicts" "/tmp/x.txt" = "/tmp/x.txt".
Proof. repeat split. Qed.

Example segments_example : segments "/a//b/./c/" = ["a"; "b"; "."; "c"].
Proof. reflexivity. Qed.

Lemma tokens_nonempty (p : string) : tokens p ≠ [].
Proof.
  destruct p as [|c s]; simpl; [done|].
  destruct (is_slash c); [done|]. by destruct (tokens s).
Qed.

Lemma tokens_cons (c : ascii) (s : string) :
  tokens (String c s) =
  if is_slash c then "" :: tokens s
  else match tokens s with
       | t :: ts => String c t :: ts
       | [] => [String c ""]
       end.
Proof. reflexivity. Qed.

(** The two halves of [cut_last_slash] against the pieces of the path:
    the tail is the last piece, and a non-empty head ends in a slash. *)
Lemma cut_last_slash_tokens (p : string) :
  let '(h, t) := cut_last_slash p in
  (h = "" ∧ tokens p = [t]) ∨
  (∃ i0 rest, tokens h = i0 :: rest ++ [""] ∧ tokens p = i0 :: rest ++ [t]).
Proof.
  induction p as [|c s IH]; simpl; [by left|].
  destruct (cut_last_slash s) as [h' t'].
  destruct IH as [[-> Hs]|(i0 & rest & Hh & Hs)].
  - destruct (is_slash c) eqn:Hc.
    + right. exists "", []. simpl. rewrite Hc, Hs. done.
    + left. rewrite Hs. done.
  - assert (h' ≠ "") as Hne by (intros ->; simpl in Hh; destruct rest; discriminate).
    destruct h' as [|c' h'']; [done|].
    right. rewrite (tokens_cons c (String c' h'')), Hh, Hs.
    destruct (is_slash c).
    + by exists "", (i0 :: rest).
    + by exists (String c i0), rest.
Qed.

Lemma segments_cut (p : string) :
  segments p = segments (cut_last_slash p).1
               ++ filter (λ t, t ≠ "") [(cut_last_slash p).2].
Proof.
  pose proof (cut_last_slash_tokens p) as H.
  destruct (cut_last_slash p) as [h t]; simpl.
  destruct H as [[-> Hp]|(i0 & rest & Hh & Hp)]; unfold segments.
  - rewrite Hp. reflexivity.
  - rewrite Hh, Hp.
    change (i0 :: rest ++ [""]) with ((i0 :: rest) ++ [""]).
    change (i0 :: rest ++ [t]) with ((i0 :: rest) ++ [t]).
    rewrite !filter_app. f_equal.
    change (filter (λ t : string, t ≠ "") [""]) with (@nil string).
    by rewrite app_nil_r.
Qed.

Lemma append_nil_l (t : string) : "" +:+ t = t.
Proof. reflexivity. Qed.

Lemma append_cons (c : ascii) (s t : string) :
  String c s +:+ t = String c (s +:+ t).
Proof. reflexivity. Qed.

Lemma append_nil_r (s : string) : s +:+ "" = s.
Proof. induction s as [|c s IH]; [done|]. by rewrite append_cons, IH. Qed.

Lemma tokens_app_slash (r s : string) :
  tokens (r +:+ String "/" s) = tokens r ++ tokens s.
Proof.
  induction r as [|c r IH]; [done|].
  rewrite append_cons, !tokens_cons, IH. destruct (is_slash c); [done|].
  pose proof (tokens_nonempty r). by destruct (tokens r).
Qed.

Lemma segments_slashes (n : nat) : segments (slashes n) = [].
Proof.
  unfold segments. induction n as [|n IH]; [done|].
  change (tokens (slashes (S n))) with ("" :: tokens (slashes n)).
  by rewrite filter_cons_False by (intros Hn; apply Hn; reflexivity).
Qed.

Lemma segments_app_slashes (r : string) (n : nat) :
  segments (r +:+ slashes n) = segments r.
Proof.
  destruct n as [|n]; simpl; [by rewrite append_nil_r|].
  unfold segments. rewrite tokens_app_slash, filter_app.
  fold (segments (slashes n)). by rewrite segments_slashes, app_nil_r.
Qed.

Lemma rstrip_slash_spec (s : string) : ∃ n, s = rstrip_slash s +:+ slashes n.
Proof.
  induction s as [|c s [n IH]]; [by exists 0|]. simpl.
  destruct (rstrip_slash s) as [|c' r] eqn:Hr.
  - rewrite append_nil_l in IH. destruct (is_slash c) eqn:Hc.
    + exists (S n). apply bool_decide_eq_true in Hc.
      by rewrite append_nil_l, Hc, IH.
    + exists n. by rewrite append_cons, append_nil_l, <- IH.
  - exists n. by rewrite append_cons, <- IH.
Qed.

Lemma segments_rstrip_slash (s : string) : segments (rstrip_slash s) = segments s.
Proof.
  destruct (rstrip_slash_spec s) as [n Hn].
  rewrite Hn at 2. by rewrite segments_app_slashes.
Qed.

Lemma segments_dirname (p : string) :
  segments (dirname p) = segments (cut_last_slash p).1.
Proof.
  unfold dirname, split. destruct (cut_last_slash p) as [h t]; simpl.
  destruct (_ && _); [apply segments_rstrip_slash|done].
Qed.

(** The components of a path are those of its directory part, then its
    last piece. *)
Lemma segments_split (p : string) :
  segments p = segments (dirname p) ++ filter (λ t, t ≠ "") [(split p).2].
Proof.
  rewrite segments_dirname, (segments_cut p).
  unfold split. by destruct (cut_last_slash p).
Qed.

Lemma split_tail (p : string) : (split p).2 = (cut_last_slash p).2.
Proof. unfold split. by destruct (cut_last_slash p). Qed.

(** Only the empty path and paths that end in a slash have an empty tail. *)
Lemma cut_tail_empty (p : string) :
  (cut_last_slash p).2 = "" → p = "" ∨ ends_with_slash p = true.
Proof.
  induction p as [|c s IH]; [by left|].
  intros H. right. simpl in H.
  destruct (cut_last_slash s) as [h' t'] eqn:Hcut. simpl in IH.
  assert (t' = "" → s ≠ "" → ends_with_slash (String c s) = true) as Hs.
  { intros Ht Hne. destruct (IH Ht) as [->|He]; [done|].
    destruct s; [done|]. exact He. }
  destruct h' as [|c' h''].
  - destruct (is_slash c) eqn:Hc; simpl in H; [|done].
    destruct s; [done|]. by apply Hs.
  - simpl in H. apply Hs; [done|]. intros ->. discriminate.
Qed.

Lemma cut_head_start (p : string) :
  (cut_last_slash p).1 ≠ "" →
  starts_with_slash (cut_last_slash p).1 = starts_with_slash p.
Proof.
  destruct p as [|c s]; [done|]. simpl.
  destruct (cut_last_slash s) as [[|c' h''] t']; [|done].
  destruct (is_slash c) eqn:Hc; simpl; [by rewrite Hc|done].
Qed.

Lemma rstrip_slash_start (h : string) :
  rstrip_slash h ≠ "" → starts_with_slash (rstrip_slash h) = starts_with_slash h.
Proof.
  destruct h as [|c s]; [done|]. simpl.
  destruct (rstrip_slash s); [|done].
  destruct (is_slash c) eqn:Hc; simpl; [done|by rewrite Hc].
Qed.

Lemma dirname_start (p : string) :
  dirname p ≠ "" → starts_with_slash (dirname p) = starts_with_slash p.
Proof.
  pose proof (cut_head_start p) as Hcut. revert Hcut.
  unfold dirname, split. destruct (cut_last_slash p) as [h t]; simpl.
  destruct (_ && _) eqn:Hc.
  - intros Hcut Hne. rewrite rstrip_slash_start by done. apply Hcut.
    apply andb_true_iff in Hc as [Hc _]. apply negb_true_iff in Hc.
    by apply bool_decide_eq_false in Hc.
  - auto.
Qed.

Lemma cut_last_slash_length (p : string) :
  (String.length (cut_last_slash p).1 + String.length (cut_last_slash p).2
   = String.length p)%nat.
Proof.
  induction p as [|c s IH]; [done|]. simpl.
  destruct (cut_last_slash s) as [[|c' h''] t']; simpl in *.
  - destruct (is_slash c); simpl; lia.
  - lia.
Qed.

Lemma rstrip_slash_length (s : string) :
  (String.length (rstrip_slash s) ≤ String.length s)%nat.
Proof.
  induction s as [|c s IH]; [done|]. simpl.
  destruct (rstrip_slash s); [destruct (is_slash c)|]; simpl in *; lia.
Qed.

Lemma split_length (p : string) :
  (String.length (split p).1 + String.length (split p).2 ≤ String.length p)%nat.
Proof.
  pose proof (cut_last_slash_length p) as H. revert H. unfold split.
  destruct (cut_last_slash p) as [h t]; simpl.
  destruct (_ && _); [|lia]. pose proof (rstrip_slash_length h). lia.
Qed.

(** The head that [os.makedirs] recurses on is shorter than the name. *)
Lemma makedirs_head_shorter (name : string) :
  let '(head, tail) := split name in
  let '(head, tail) :=
    if bool_decide (tail = "") then split head else (head, tail) in
  tail ≠ "" → (String.length head < String.length name)%nat.
Proof.
  pose proof (split_length name) as H1.
  destruct (split name) as [h1 t1]; simpl in H1.
  case_bool_decide as Ht1.
  - pose proof (split_length h1) as H2.
    destruct (split h1) as [h2 t2]; simpl in H2.
    intros Ht2. destruct t2; [done|]. simpl in *. lia.
  - intros _. destruct t1; [done|]. simpl in *. lia.
Qed.

Lemma cut_last_slash_no_slash (f : string) :
  has_slash f = false → cut_last_slash f = ("", f).
Proof.
  induction f as [|c s IH]; [done|]. simpl.
  intros [Hc Hs]%orb_false_iff. by rewrite (IH Hs), Hc.
Qed.

Lemma dirname_no_slash (f : string) : has_slash f = false → dirname f = "".
Proof.
  intros H. unfold dirname, split. by rewrite (cut_last_slash_no_slash f H).
Qed.

Lemma join_empty_l (f : string) : join "" f = f.
Proof. unfold join. by destruct (starts_with_slash f). Qed.

End PathFacts.

(** ** Facts about the file system operations *)

Module FSFacts.
Import PosixPath.
Import FS.
Import PathFacts.

Lemma walk_app (ns : gmap (list string) node) (a b : list string) :
  ∀ cur, walk ns cur (a ++ b) =
         match walk ns cur a with
         | Return k => walk ns k b
         | Raise e => Raise e
         end.
Proof.
  induction a as [|seg a IH]; intros cur; simpl; [done|].
  destruct (ns !! cur) as [[? []|? ?]|]; auto. by case_bool_decide.
Qed.

Lemma walk_preserved (ns ns' : gmap (list string) node) (segs : list string) :
  dirs_preserved ns ns' →
  ∀ cur k, walk ns cur segs = Return k → walk ns' cur segs = Return k.
Proof.
  intros Hd. induction segs as [|seg segs IH]; intros cur k; simpl; [done|].
  destruct (ns !! cur) as [[wd []|? ?]|] eqn:Hcur; try done.
  rewrite (Hd _ _ _ Hcur). case_bool_decide; [apply IH|done].
Qed.

Lemma insert_file_dirs_preserved (ns : gmap (list string) node)
    (k : list string) (w : bool) (c : string) :
  (∀ w' x', ns !! k ≠ Some (Dir w' x')) →
  dirs_preserved ns (<[k := File w c]> ns).
Proof.
  intros Hk k0 w0 x0 H0. rewrite lookup_insert_ne; [done|].
  intros ->. by apply (Hk w0 x0).
Qed.

Lemma create_Return (fs fs' : filesystem) (k : list string) (n : node) (u : unit) :
  create fs k n = (Return u, fs') → fs' = with_nodes fs (<[k := n]> (nodes fs)).
Proof.
  unfold create. destruct (nodes fs !! removelast k) as [[[] ?|? ?]|];
    try destruct (create_fault _); congruence.
Qed.

Lemma create_Raise (fs fs' : filesystem) (k : list string) (n : node) (e : exn) :
  create fs k n = (Raise e, fs') → fs' = fs.
Proof.
  unfold create. destruct (nodes fs !! removelast k) as [[[] ?|? ?]|];
    try destruct (create_fault _); congruence.
Qed.

(** A successful [open_w] found no directory at the path and left an
    empty regular file there. *)
Lemma open_w_Return (fs fs' : filesystem) (p : string) (k : list string) :
  open_w fs p = (Return k, fs') →
  ∃ w, resolve fs p = Return k ∧ ends_with_slash p = false
       ∧ (∀ w' x', nodes fs !! k ≠ Some (Dir w' x'))
       ∧ fs' = with_nodes fs (<[k := File w ""]> (nodes fs))
       ∧ (w = true ∨ nodes fs !! k = None ∧ w = new_writable (platform_of fs)).
Proof.
  unfold open_w. destruct (resolve fs p) as [k0|e]; [|done].
  destruct (nodes fs !! k0) as [[wd xd|wf c0]|] eqn:Hk; [done| |].
  - destruct (ends_with_slash p); [done|]. destruct wf; [|done].
    intros [= <- <-]. exists true. rewrite Hk. eauto 10.
  - destruct (ends_with_slash p); [done|].
    destruct (create fs k0 _) as [[u|e] fs1] eqn:Hc; [|done].
    intros [= <- <-]. apply create_Return in Hc as ->.
    exists (new_writable (platform_of fs)). rewrite Hk. eauto 10.
Qed.

(** An [open_w] that raises has changed nothing. *)
Lemma open_w_Raise (fs fs' : filesystem) (p : string) (e : exn) :
  open_w fs p = (Raise e, fs') → fs' = fs.
Proof.
  unfold open_w. destruct (resolve fs p) as [k|e']; [|congruence].
  destruct (nodes fs !! k) as [[wd xd|wf c0]|]; [congruence| |].
  - destruct (ends_with_slash p); [congruence|]. destruct wf; congruence.
  - destruct (ends_with_slash p); [congruence|].
    destruct (create fs k _) as [[u|e0] fs1] eqn:Hc; [done|].
    intros [= <- <-]. by apply create_Raise in Hc.
Qed.

(** A successful [open_write] found no directory at the path and put a
    regular file with the new content there. *)
Lemma open_write_Return (fs fs' : filesystem) (p c : string) (u : unit) :
  open_write fs p c = (Return u, fs') →
  ∃ k w, resolve fs p = Return k ∧ ends_with_slash p = false
         ∧ (∀ w' x', nodes fs !! k ≠ Some (Dir w' x'))
         ∧ fs' = with_nodes fs (<[k := File w c]> (nodes fs))
         ∧ (w = true ∨ nodes fs !! k = None ∧ w = new_writable (platform_of fs))
         ∧ write_fault (platform_of fs) c = None.
Proof.
  unfold open_write. destruct (open_w fs p) as [[k|e] fs1] eqn:Hop; [|done].
  apply open_w_Return in Hop as (w & Hres & Hend & Hnd & -> & Hw).
  unfold write_close. simpl. rewrite lookup_insert_eq.
  destruct (write_fault (platform_of fs) c) as [[e rest]|] eqn:Hfault; [done|].
  intros [= H0]. subst fs'. exists k, w. unfold with_nodes. simpl.
  by rewrite insert_insert_eq.
Qed.

Lemma resolve_preserved (fs : filesystem) (ns' : gmap (list string) node)
    (p : string) (k : list string) :
  dirs_preserved (nodes fs) ns' →
  resolve fs p = Return k → resolve (with_nodes fs ns') p = Return k.
Proof.
  unfold resolve. intros Hd. destruct (has_nul p); [done|].
  case_bool_decide; [done|]. case_bool_decide; [done|]. simpl.
  by apply walk_preserved.
Qed.

(** After a successful [open_write] the path reads back the content. *)
Lemma open_write_read (fs fs' : filesystem) (p c : string) (u : unit) :
  open_write fs p c = (Return u, fs') → read_file fs' p = Some c.
Proof.
  intros (k & w & Hres & Hend & Hnd & -> & _)%open_write_Return.
  unfold read_file, stat.
  rewrite (resolve_preserved fs _ p k); [|by apply insert_file_dirs_preserved|done].
  simpl. by rewrite lookup_insert_eq, Hend.
Qed.

Lemma resolve_walk (fs : filesystem) (p : string) (k : list string) :
  resolve fs p = Return k →
  has_nul p = false ∧ p ≠ "" ∧ (String.length p < PATH_MAX)%nat
  ∧ walk (nodes fs) (if starts_with_slash p then [] else cwd fs) (segments p)
    = Return k.
Proof.
  unfold resolve. destruct (has_nul p); [done|].
  case_bool_decide as H1; [done|]. case_bool_decide as H2; [done|].
  intros Hwalk. repeat split; try done. lia.
Qed.

Lemma walk_resolve (fs : filesystem) (p : string) (k : list string) :
  has_nul p = false → p ≠ "" → (String.length p < PATH_MAX)%nat →
  walk (nodes fs) (if starts_with_slash p then [] else cwd fs) (segments p)
  = Return k →
  resolve fs p = Return k.
Proof.
  intros Hn Hp Hl Hw. unfold resolve. rewrite Hn.
  rewrite bool_decide_eq_false_2 by done.
  by rewrite bool_decide_eq_false_2 by lia.
Qed.

Lemma has_nul_app (a b : string) : has_nul (a +:+ b) = has_nul a || has_nul b.
Proof.
  induction a as [|c a IH]; [done|]. rewrite append_cons. simpl.
  by rewrite IH, orb_assoc.
Qed.

Lemma length_append (a b : string) :
  String.length (a +:+ b) = (String.length a + String.length b)%nat.
Proof.
  induction a as [|c a IH]; [done|]. rewrite append_cons. simpl. by rewrite IH.
Qed.

(** The directory part of a path is a prefix of it, up to slashes: it
    has no NUL and no more bytes than the path. *)
Lemma cut_last_slash_append (p : string) :
  p = (cut_last_slash p).1 +:+ (cut_last_slash p).2.
Proof.
  induction p as [|c s IH]; [done|]. simpl.
  destruct (cut_last_slash s) as [[|c' h''] t']; simpl in *.
  - destruct (is_slash c); simpl; by rewrite ?append_cons, ?append_nil_l, IH.
  - by rewrite append_cons, <- IH.
Qed.

Lemma dirname_has_nul (p : string) : has_nul p = false → has_nul (dirname p) = false.
Proof.
  intros Hp. rewrite (cut_last_slash_append p), has_nul_app in Hp.
  apply orb_false_iff in Hp as [Hh _].
  unfold dirname, split. destruct (cut_last_slash p) as [h t]; simpl in *.
  destruct (_ && _); [|done].
  destruct (rstrip_slash_spec h) as [n Hn]. rewrite Hn, has_nul_app in Hh.
  by apply orb_false_iff in Hh as [? _].
Qed.

Lemma dirname_length (p : string) :
  (String.length (dirname p) ≤ String.length p)%nat.
Proof. pose proof (split_length p). unfold dirname. lia. Qed.

(** After a successful [open_write] the directory part of the path is a
    directory. *)
Lemma open_write_isdir_dirname (fs fs' : filesystem) (p c : string) (u : unit) :
  open_write fs p c = (Return u, fs') →
  dirname p ≠ "" → isdir fs' (dirname p) = true.
Proof.
  intros (k & w & Hres & Hend & Hnd & -> & _)%open_write_Return Hd.
  apply resolve_walk in Hres as (Hnul & Hp & Hlen & Hres).
  assert ((split p).2 ≠ "") as Ht.
  { rewrite split_tail. intros [?|?]%cut_tail_empty; congruence. }
  rewrite (segments_split p), filter_cons_True, filter_nil in Hres by done.
  rewrite walk_app in Hres.
  destruct (walk _ _ (segments (dirname p))) as [kd|] eqn:Hwalk; [|done].
  simpl in Hres.
  destruct (nodes fs !! kd) as [[wd []|? ?]|] eqn:Hkd; try done.
  pose proof (insert_file_dirs_preserved (nodes fs) k w c Hnd) as Hpres.
  unfold isdir, stat.
  rewrite (walk_resolve _ (dirname p) kd).
  - simpl. by rewrite (Hpres _ _ _ Hkd).
  - by apply dirname_has_nul.
  - done.
  - pose proof (dirname_length p). lia.
  - simpl. rewrite (dirname_start p Hd).
    by apply (walk_preserved _ _ _ Hpres).
Qed.

(** [os.makedirs] never runs out of fuel. *)
Lemma makedirs_fuel_enough (n : nat) :
  ∀ fs name, (String.length name < n)%nat → is_Some (makedirs_fuel n fs name).
Proof.
  induction n as [|n IH]; intros fs name Hn; [lia|]. simpl.
  pose proof (makedirs_head_shorter name) as Hhead.
  destruct (split name) as [h1 t1].
  destruct (if bool_decide (t1 = "") then split h1 else (h1, t1)) as [head tail].
  destruct (_ && _) eqn:Hc; [|done].
  apply andb_true_iff in Hc as [[_ Ht]%andb_true_iff _].
  apply negb_true_iff, bool_decide_eq_false in Ht.
  destruct (IH fs head) as [[r fs1] ->]; [specialize (Hhead Ht); lia|].
  destruct r as [[]|[]]; try done; by case_bool_decide.
Qed.

Lemma makedirs_spec (fs : filesystem) (name : string) :
  makedirs_fuel (S (String.length name)) fs name = Some (makedirs fs name).
Proof.
  unfold makedirs.
  destruct (makedirs_fuel_enough (S (String.length name)) fs name) as [r Hr]; [lia|].
  by rewrite Hr.
Qed.

(** [os.makedirs("")] raises: there is no directory to create. *)
Lemma makedirs_empty (fs : filesystem) :
  makedirs fs "" = (Raise FileNotFoundError, fs).
Proof. reflexivity. Qed.

End FSFacts.

(** ** [write_file] *)

Module WriteFacts.
Import PosixPath.
Import Tools.
Import Samples.
Import PathFacts.
Import FSFacts.

(** The body of [write_file], step by step. *)
Lemma write_file_eq (directory filename content : string) (w : world) :
  write_file directory filename content w =
  let target_path := join directory filename in
  match makedirs (files w) (dirname target_path) with
  | (Raise e, fs1) => (Raise e, mkWorld (ctx w) fs1 (log w))
  | (Return _, fs1) =>
      match open_write fs1 target_path content with
      | (Raise e, fs2) => (Raise e, mkWorld (ctx w) fs2 (log w))
      | (Return _, fs2) =>
          (Return (status_dict "success"),
           mkWorld (ctx w) fs2 (log w ++ ["File written to " +:+ target_path]))
      end
  end.
Proof.
  unfold write_file, mbind, M_bind, os_makedirs, open_w_write, with_files. simpl.
  destruct (makedirs _ _) as [[u|e] fs1]; simpl; [|done].
  destruct (open_write _ _ _) as [[u'|e] fs2]; done.
Qed.

Lemma write_file_ctx (directory filename content : string) (w : world) :
  ctx (write_file directory filename content w).2 = ctx w.
Proof.
  rewrite write_file_eq. simpl.
  destruct (makedirs _ _) as [[u|e] fs1]; [|done].
  by destruct (open_write _ _ _) as [[u'|e] fs2].
Qed.

(** What a normal return of [write_file] guarantees. *)
Lemma write_file_Return (directory filename content : string) (w w' : world)
    (r : list (string * string)) :
  write_file directory filename content w = (Return r, w') →
  r = status_dict "success"
  ∧ isdir (files w') (dirname (join directory filename)) = true
  ∧ read_file (files w') (join directory filename) = Some content.
Proof.
  rewrite write_file_eq. simpl.
  destruct (makedirs _ _) as [[u|e] fs1] eqn:Hmk; [|done].
  destruct (open_write _ _ _) as [[u'|e] fs2] eqn:Hop; [|done].
  intros [= <- <-]. simpl. split; [done|]. split.
  - apply (open_write_isdir_dirname _ _ _ _ _ Hop).
    intros Hd. rewrite Hd, makedirs_empty in Hmk. done.
  - apply (open_write_read _ _ _ _ _ Hop).
Qed.

Lemma join_plain (directory filename : string) :
  directory ≠ "" → ends_with_slash directory = false →
  starts_with_slash filename = false →
  join directory filename = directory +:+ "/" +:+ filename.
Proof.
  intros Hd He Hs. unfold join. rewrite Hs, He.
  by rewrite bool_decide_eq_false_2.
Qed.

End WriteFacts.

(** ** Tool invocations, one after another *)

Module InvokeFacts.
Import Tools.
Import AppendFacts.
Import WriteFacts.

(** No tool invocation shortens a list held in the store. *)
Lemma invoke_grows (c : tool_call) (w : world) (key : string) (l : list pyval) :
  state (ctx w) !! key = Some (PList l) →
  ∃ ext, state (ctx (invoke c w)) !! key = Some (PList (l ++ ext)).
Proof.
  intros Hk. destruct c as [q|f r|d f c|]; simpl.
  - exists []. by rewrite app_nil_r.
  - by apply append_to_state_grows.
  - exists []. by rewrite write_file_ctx, app_nil_r.
  - exists []. by rewrite app_nil_r.
Qed.

Lemma invoke_all_grows (cs : list tool_call) :
  ∀ (w : world) (key : string) (l : list pyval),
    state (ctx w) !! key = Some (PList l) →
    ∃ ext, state (ctx (invoke_all cs w)) !! key = Some (PList (l ++ ext)).
Proof.
  induction cs as [|c cs IH]; intros w key l Hk; simpl.
  - exists []. by rewrite app_nil_r.
  - destruct (invoke_grows c w key l Hk) as [e1 H1].
    destruct (IH _ _ _ H1) as [e2 H2].
    exists (e1 ++ e2). by rewrite app_assoc.
Qed.

(** Only [write_file] touches the file system. *)
Lemma invoke_files (c : tool_call) (w : world) :
  (∀ d f x, c ≠ call_write_file d f x) → files (invoke c w) = files w.
Proof.
  intros Hc. destruct c as [q|f r|d f x|]; simpl; try done.
  - apply append_to_state_files.
  - by destruct (Hc d f x).
Qed.

(** The flag that [exit_loop] sets is never cleared by a tool. *)
Lemma invoke_flag (c : tool_call) (w : world) :
  ctx_exit_loop (ctx (invoke c w))
  = match c with
    | call_exit_loop => true
    | _ => ctx_exit_loop (ctx w)
    end.
Proof.
  destruct c as [q|f r|d f x|]; simpl; try done.
  - apply append_to_state_flag.
  - by rewrite write_file_ctx.
Qed.

(** No tool of the module assigns the loop control signal of the
    library: not [exit_loop] either. *)
Lemma invoke_escalate (c : tool_call) (w : world) :
  ctx_escalate (ctx (invoke c w)) = ctx_escalate (ctx w).
Proof.
  destruct c as [q|f r|d f x|]; simpl; try done.
  - rewrite append_to_state_eq. by destruct (py_add _ _).
  - by rewrite write_file_ctx.
Qed.

End InvokeFacts.

(** * The claims about the tools *)

Module ToolClaims.
Import PosixPath.
Import Tools.
Import Agents.
Import Samples.
Import AppendFacts.
Import PathFacts.
Import FSFacts.
Import WriteFacts.
Import InvokeFacts.

(** C1.  When [field] is absent or holds a list [l] (an absent key reads
    as the empty list), [append_to_state] returns the success status and
    stores [l] with [response] appended at the end under [field], leaving
    the rest of the store as it was; and whatever tools are invoked
    afterwards in the run, [field] still holds a list that begins with
    those entries: nothing appended is ever removed and the length only
    grows. *)
Theorem append_to_state_append_only (w : world) (field response : string)
    (l : list pyval) (later : list tool_call) :
  dict_get (state (ctx w)) field (PList []) = PList l →
  (append_to_state field response w).1 = Return (status_dict "success")
  ∧ state (ctx (append_to_state field response w).2)
    = <[field := PList (l ++ [PStr response])]> (state (ctx w))
  ∧ ∃ ext,
      state (ctx (invoke_all later (append_to_state field response w).2)) !! field
      = Some (PList ((l ++ [PStr response]) ++ ext))
      ∧ length l < length ((l ++ [PStr response]) ++ ext).
Proof.
  intros Hl. rewrite (append_to_state_list _ _ _ l Hl). simpl.
  split; [done|]. split; [done|].
  destruct (invoke_all_grows later
              (mkWorld (mkCtx (<[field := PList (l ++ [PStr response])]> (state (ctx w)))
                              (ctx_exit_loop (ctx w)) (ctx_escalate (ctx w)))
                       (files w)
                       (log w ++ ["[Added to " +:+ field +:+ "] " +:+ response]))
              field (l ++ [PStr response])) as [ext Hext].
  { simpl. apply lookup_insert_eq. }
  exists ext. split; [exact Hext|]. rewrite !length_app. simpl. lia.
Qed.

Lemma append_to_state_append_only_witness :
  dict_get (state (ctx findings_world)) "pos_data" (PList []) = PList [PStr "won"]
  ∧ (append_to_state "pos_data" "built roads" findings_world).1
    = Return (status_dict "success")
  ∧ state (ctx (append_to_state "pos_data" "built roads" findings_world).2)
    = <["pos_data" := PList ([PStr "won"] ++ [PStr "built roads"])]>
        (state (ctx findings_world)).
Proof.
  split; [reflexivity|].
  destruct (append_to_state_append_only findings_world "pos_data" "built roads"
              [PStr "won"]
              [call_append_to_state "neg_data" "taxes"; call_exit_loop;
               call_append_to_state "pos_data" "laws"]) as (H1 & H2 & _).
  - reflexivity.
  - split; [exact H1 | exact H2].
Defined.

(** C8.  [append_to_state] on a key that is absent or holds a list returns
    the success status, and the key then holds a list; on a key that holds
    anything else, a bare string in particular, the concatenation raises
    [TypeError] and the world is left as it was.  So a key written through
    [append_to_state] always holds a list, never a bare string. *)
Theorem append_to_state_sequence_or_type_error (w : world) (field response : string) :
  match state (ctx w) !! field with
  | None | Some (PList _) =>
      (append_to_state field response w).1 = Return (status_dict "success")
      ∧ ∃ l, state (ctx (append_to_state field response w).2) !! field
             = Some (PList l)
  | Some _ =>
      append_to_state field response w = (Raise TypeError, w)
  end.
Proof.
  destruct (state (ctx w) !! field) as [v|] eqn:Hf.
  - destruct v as [|z|s|l];
      try (apply append_to_state_not_list; unfold dict_get; by rewrite Hf).
    rewrite (append_to_state_list _ _ _ l) by (unfold dict_get; by rewrite Hf).
    simpl. split; [done|]. eexists. apply lookup_insert_eq.
  - rewrite (append_to_state_list _ _ _ []) by (unfold dict_get; by rewrite Hf).
    simpl. split; [done|]. eexists. apply lookup_insert_eq.
Qed.

(** C9.  [append_to_state] changes the store at [field] only: every other
    key maps to the same value after the call as before it (and the file
    system and the context flag are untouched). *)
Theorem append_to_state_frame (w : world) (field response key : string) :
  key ≠ field →
  state (ctx (append_to_state field response w).2) !! key = state (ctx w) !! key
  ∧ files (append_to_state field response w).2 = files w
  ∧ ctx_exit_loop (ctx (append_to_state field response w).2) = ctx_exit_loop (ctx w).
Proof.
  intros Hne. split; [by apply append_to_state_other|].
  split; [apply append_to_state_files|apply append_to_state_flag].
Qed.

Lemma append_to_state_frame_witness :
  "neg_data" ≠ "pos_data"
  ∧ state (ctx (append_to_state "pos_data" "built roads" findings_world).2) !! "neg_data"
    = Some (PList [PStr "lost"]).
Proof.
  assert ("neg_data" ≠ "pos_data") as Hne by discriminate.
  split; [exact Hne|].
  destruct (append_to_state_frame findings_world "pos_data" "built roads" "neg_data" Hne)
    as (H & _ & _).
  rewrite H. reflexivity.
Defined.

(** C5, as claimed, fails: the clerk's only tool is [append_to_state], and
    on a fresh store it leaves a one-element list under [TOPIC], not a
    string. *)
Lemma topic_is_not_a_string :
  tools_of (root_agent None) = [tool_append_to_state]
  ∧ state (ctx (append_to_state "TOPIC" "Example" fresh_world).2) !! "TOPIC"
    = Some (PList [PStr "Example"])
  ∧ ¬ holds_string (append_to_state "TOPIC" "Example" fresh_world).2 "TOPIC".
Proof.
  split; [reflexivity|]. split; [reflexivity|].
  intros [s Hs]. vm_compute in Hs. discriminate.
Qed.

(** C5, amended.  The clerk holds no tool but [append_to_state]; when that
    call on [TOPIC] returns, [TOPIC] holds a list whose last element is the
    topic string - the one-element list when [TOPIC] was absent - and so
    never a bare string. *)
Theorem topic_is_a_sequence (model_name : option string) (w w' : world)
    (topic : string) (r : list (string * string)) :
  append_to_state "TOPIC" topic w = (Return r, w') →
  tools_of (root_agent model_name) = [tool_append_to_state]
  ∧ (∃ l, state (ctx w') !! "TOPIC" = Some (PList (l ++ [PStr topic]))
          ∧ (state (ctx w) !! "TOPIC" = None → l = []))
  ∧ ¬ holds_string w' "TOPIC".
Proof.
  intros Hret. split; [reflexivity|].
  rewrite append_to_state_eq, py_add_list_r in Hret.
  destruct (dict_get (state (ctx w)) "TOPIC" (PList [])) as [|z|s|l] eqn:Hget;
    try discriminate.
  injection Hret as <- <-. simpl. rewrite lookup_insert_eq. split.
  - exists l. split; [done|]. intros Hnone.
    unfold dict_get in Hget. rewrite Hnone in Hget. congruence.
  - intros [s Hs]. simpl in Hs. rewrite lookup_insert_eq in Hs. discriminate.
Qed.

Lemma topic_is_a_sequence_witness :
  append_to_state "TOPIC" "Example" fresh_world
  = (Return (status_dict "success"),
     (append_to_state "TOPIC" "Example" fresh_world).2)
  ∧ ¬ holds_string (append_to_state "TOPIC" "Example" fresh_world).2 "TOPIC".
Proof.
  assert (append_to_state "TOPIC" "Example" fresh_world
          = (Return (status_dict "success"),
             (append_to_state "TOPIC" "Example" fresh_world).2)) as H
    by reflexivity.
  split; [exact H|].
  exact (proj2 (proj2 (topic_is_a_sequence None _ _ _ _ H))).
Defined.

(** C4, as claimed, fails: with an empty directory and a plain file name
    [write_file] raises [FileNotFoundError]; it returns no status and
    writes no file. *)
Lemma write_file_empty_directory_raises :
  (write_file "" "Example.txt" "report" fresh_world).1 = Raise FileNotFoundError
  ∧ (∀ r, (write_file "" "Example.txt" "report" fresh_world).1 ≠ Return r)
  ∧ read_file (files (write_file "" "Example.txt" "report" fresh_world).2)
              (join "" "Example.txt") = None.
Proof.
  split; [reflexivity|]. split; [|reflexivity].
  intros r Hr. vm_compute in Hr. discriminate.
Qed.

(** C4, amended.  For every directory, file name and content,
    [write_file] raises exactly the exception of the operation that failed
    - [os.makedirs] on the directory part of
    [os.path.join(directory, filename)], or else the opening and writing
    of that path - and when both succeed it returns the success status;
    the directory part is then a directory and the file at the path holds
    exactly the content, whatever was there before.  There is no failure
    status.  The path is [directory/filename] when the directory is not
    empty, does not end in a slash, and the file name is relative. *)
Theorem write_file_writes (w : world) (directory filename content : string) :
  match makedirs (files w) (dirname (join directory filename)) with
  | (Raise e, _) => (write_file directory filename content w).1 = Raise e
  | (Return _, fs1) =>
      match open_write fs1 (join directory filename) content with
      | (Raise e, _) => (write_file directory filename content w).1 = Raise e
      | (Return _, fs2) =>
          (write_file directory filename content w).1
          = Return (status_dict "success")
          ∧ files (write_file directory filename content w).2 = fs2
          ∧ isdir fs2 (dirname (join directory filename)) = true
          ∧ read_file fs2 (join directory filename) = Some content
      end
  end
  ∧ (directory ≠ "" → ends_with_slash directory = false →
     starts_with_slash filename = false →
     join directory filename = directory +:+ "/" +:+ filename).
Proof.
  split; [|apply join_plain].
  pose proof (write_file_Return directory filename content w) as Hret.
  rewrite write_file_eq in *. simpl in *.
  destruct (makedirs (files w) _) as [[u|e] fs1]; [|done].
  destruct (open_write fs1 _ content) as [[u'|e] fs2]; [|done].
  destruct (Hret _ _ eq_refl) as (_ & Hd & Hr). simpl in *. done.
Qed.

(** C10.  A normal return of [write_file] carries the success status and
    nothing else; there is no failure status.  Whatever [os.makedirs] or
    the write raises is raised by [write_file]: a write that is denied
    raises [PermissionError], and an empty directory with a plain file
    name raises [FileNotFoundError] from the directory creation. *)
Theorem write_file_raises_on_failure (w : world) (directory filename content : string) :
  (∀ r w', write_file directory filename content w = (Return r, w') →
           r = status_dict "success")
  ∧ (∀ e fs1, makedirs (files w) (dirname (join directory filename)) = (Raise e, fs1) →
              (write_file directory filename content w).1 = Raise e)
  ∧ (∀ u fs1 e fs2,
       makedirs (files w) (dirname (join directory filename)) = (Return u, fs1) →
       open_write fs1 (join directory filename) content = (Raise e, fs2) →
       (write_file directory filename content w).1 = Raise e)
  ∧ (∀ u fs1 k c0,
       makedirs (files w) (dirname (join directory filename)) = (Return u, fs1) →
       resolve fs1 (join directory filename) = Return k →
       nodes fs1 !! k = Some (File false c0) →
       ends_with_slash (join directory filename) = false →
       (write_file directory filename content w).1 = Raise PermissionError)
  ∧ (has_slash filename = false →
     (write_file "" filename content w).1 = Raise FileNotFoundError).
Proof.
  split; [|split; [|split; [|split]]].
  - intros r w' Hw. by destruct (write_file_Return _ _ _ _ _ _ Hw).
  - intros e fs1 Hmk. rewrite write_file_eq. simpl. by rewrite Hmk.
  - intros u fs1 e fs2 Hmk Hop. rewrite write_file_eq. simpl. by rewrite Hmk, Hop.
  - intros u fs1 k c0 Hmk Hres Hk Hend. rewrite write_file_eq. simpl.
    rewrite Hmk. unfold open_write, open_w. by rewrite Hres, Hk, Hend.
  - intros Hf. rewrite write_file_eq. simpl.
    by rewrite join_empty_l, (dirname_no_slash _ Hf), makedirs_empty.
Qed.

(** [write_file] creates the missing directories on the way. *)
Example write_file_creates_parents :
  let w' := (write_file "verdicts/1815" "Example.txt" "report" fresh_world).2 in
  isdir (files fresh_world) "verdicts" = false
  ∧ isdir (files w') "verdicts" = true
  ∧ isdir (files w') "verdicts/1815" = true
  ∧ read_file (files w') "verdicts/1815/Example.txt" = Some "report".
Proof. vm_compute. done. Qed.

(** Writing the same report again replaces the content. *)
Example write_file_overwrites :
  let w1 := (write_file "verdicts" "Example.txt" "first" fresh_world).2 in
  let w2 := (write_file "verdicts" "Example.txt" "second" w1).2 in
  read_file (files w1) "verdicts/Example.txt" = Some "first"
  ∧ read_file (files w2) "verdicts/Example.txt" = Some "second".
Proof. vm_compute. done. Qed.

(** A report that may not be written: the exception escapes. *)
Example write_file_denied :
  write_file "verdicts" "Example.txt" "new"
             (mkWorld (mkCtx ∅ false false) readonly_report_fs [])
  = (Raise PermissionError, mkWorld (mkCtx ∅ false false) readonly_report_fs []).
Proof. reflexivity. Qed.

(** An absolute file name makes [os.path.join] drop the directory: the
    report lands outside [verdicts]. *)
Example write_file_absolute_name :
  let w' := (write_file "verdicts" "/home/x.txt" "report" fresh_world).2 in
  read_file (files w') "/home/x.txt" = Some "report"
  ∧ isdir (files w') "verdicts" = false.
Proof. vm_compute. done. Qed.

End ToolClaims.

(** * Properties of a run *)

Module RunFacts.
Import Tools.
Import Agents.
Import Runner.
Import InvokeFacts.

(** Induction on a graph, with the property available for every child. *)
Lemma agent_nested_ind (P : agent → Prop) :
  (∀ n g d i tl l, Forall P l → P (Agent n g d i tl l)) →
  (∀ n d l, Forall P l → P (SequentialAgent n d l)) →
  (∀ n d l, Forall P l → P (ParallelAgent n d l)) →
  (∀ n d l m, Forall P l → P (LoopAgent n d l m)) →
  ∀ u, P u.
Proof.
  intros HA HS HP HL. fix IH 1. intros u.
  destruct u as [n g d i tl l|n d l|n d l|n d l m].
  - apply HA. induction l as [|c l IHl]; constructor; [apply IH|apply IHl].
  - apply HS. induction l as [|c l IHl]; constructor; [apply IH|apply IHl].
  - apply HP. induction l as [|c l IHl]; constructor; [apply IH|apply IHl].
  - apply HL. induction l as [|c l IHl]; constructor; [apply IH|apply IHl].
Qed.

(** ** Replaying events *)

Lemma replay_app (a b : list event) (w : world) :
  replay (a ++ b) w = replay b (replay a w).
Proof. apply fold_left_app. Qed.

Lemma replay_event_files (e : event) (w : world) :
  ¬ is_write e → files (replay_event w e) = files w.
Proof.
  destruct e as [n k|a c|a]; simpl; try done.
  intros Hw. apply invoke_files. intros d f x ->. by apply Hw.
Qed.

Lemma replay_files (evs : list event) :
  Forall (λ e, ¬ is_write e) evs → ∀ w, files (replay evs w) = files w.
Proof.
  induction 1 as [|e evs He _ IH]; intros w; [done|].
  simpl. fold (replay evs (replay_event w e)).
  by rewrite IH, replay_event_files.
Qed.

Lemma replay_event_flag (e : event) (w : world) :
  ctx_exit_loop (ctx w) = true ∨ is_exit e →
  ctx_exit_loop (ctx (replay_event w e)) = true.
Proof.
  destruct e as [n k|a c|a]; simpl; try (by intros [?|?]).
  rewrite invoke_flag. destruct c; simpl; by intros [?|?].
Qed.

Lemma replay_flag_true (evs : list event) :
  ∀ w, ctx_exit_loop (ctx w) = true → ctx_exit_loop (ctx (replay evs w)) = true.
Proof.
  induction evs as [|e evs IH]; intros w Hw; [done|].
  simpl. apply IH, replay_event_flag. by left.
Qed.

(** A flag that is still unset says that [exit_loop] was not invoked. *)
Lemma replay_flag_false (evs : list event) :
  ∀ w, ctx_exit_loop (ctx (replay evs w)) = false → Forall (λ e, ¬ is_exit e) evs.
Proof.
  induction evs as [|e evs IH]; intros w Hw; constructor.
  - intros He. simpl in Hw.
    rewrite replay_flag_true in Hw; [done|]. apply replay_event_flag. by right.
  - by apply (IH (replay_event w e)).
Qed.

(** An invocation of [exit_loop] leaves the flag set to the end. *)
Lemma replay_flag_exit (evs : list event) (w : world) :
  Exists is_exit evs → ctx_exit_loop (ctx (replay evs w)) = true.
Proof.
  intros Hex. destruct (ctx_exit_loop (ctx (replay evs w))) eqn:Hf; [done|].
  apply replay_flag_false in Hf. apply Exists_exists in Hex as (e & Hin & He).
  rewrite Forall_forall in Hf. by destruct (Hf e Hin).
Qed.

Lemma replay_escalate (evs : list event) :
  ∀ w, ctx_escalate (ctx (replay evs w)) = ctx_escalate (ctx w).
Proof.
  induction evs as [|e evs IH]; intros w; [done|].
  simpl. fold (replay evs (replay_event w e)). rewrite IH.
  destruct e as [n k|a c|a]; simpl; try done. apply invoke_escalate.
Qed.

(** ** Merging the queues of concurrent children *)

Lemma interleave_In {A} (sched : list nat) :
  ∀ (queues : list (list A)) (x : A),
    In x (interleave sched queues) → ∃ q, In q queues ∧ In x q.
Proof.
  induction sched as [|i sched IH]; intros queues x; simpl.
  - intros (q & Hq & Hx)%in_concat. eauto.
  - destruct (queues !! i) as [[|y q]|] eqn:Hi; [by apply IH| |by apply IH].
    intros [<-|Hx].
    + exists (y :: q). split; [|by left].
      by apply list_elem_of_In, (list_elem_of_lookup_2 _ i).
    + destruct (IH _ _ Hx) as (q' & Hq' & Hxq').
      apply list_elem_of_In, list_elem_of_lookup_1 in Hq' as [j Hj].
      apply list_lookup_insert_Some in Hj as [(-> & <- & _)|[_ Hj]].
      * exists (y :: q). split; [|by right].
        apply list_elem_of_In. eapply list_elem_of_lookup_2. exact Hi.
      * exists q'. split; [|done].
        apply list_elem_of_In. eapply list_elem_of_lookup_2. exact Hj.
Qed.

(** ** Soundness of the composites *)

Lemma sound_mono (E E' : event → Prop) (N N' : string → Prop) (w : world)
    (r : result) :
  (∀ e, E e → E' e) → (∀ a, N a → N' a) → sound E N w r → sound E' N' w r.
Proof.
  intros HE HN (Hw & Hev & Hf). split; [done|]. split.
  - eapply Forall_impl; eauto.
  - intros who Hwho. eauto.
Qed.

Section Composites.

Variable orc : oracle.
Variable run : agent → nat → world → result.
Variable E : agent → event → Prop.
Variable N : agent → string → Prop.

Lemma run_sequence_sound (l : list agent) :
  (∀ c, In c l → ∀ t w, sound (E c) (N c) w (run c t w)) →
  ∀ t w, sound (λ e, ∃ c, In c l ∧ E c e) (λ a, ∃ c, In c l ∧ N c a) w
               (run_sequence run l t w).
Proof.
  induction l as [|c l IH]; intros Hl t w; simpl.
  - split; [done|]. split; [constructor|done].
  - destruct (Hl c (or_introl eq_refl) t w) as (Hw & Hev & Hf).
    assert (Forall (λ e, ∃ c0, (c = c0 ∨ In c0 l) ∧ E c0 e) (res_events (run c t w)))
      as Hev'.
    { eapply Forall_impl; [exact Hev|]. intros e He. exists c. auto. }
    destruct (res_outcome (run c t w)) as [|who] eqn:Hout.
    + destruct (IH (λ c0 Hc0, Hl c0 (or_intror Hc0))
                   (res_turn (run c t w)) (res_world (run c t w)))
        as (Hw2 & Hev2 & Hf2).
      split; [|split]; simpl.
      * by rewrite replay_app, <- Hw.
      * apply Forall_app. split; [done|].
        eapply Forall_impl; [exact Hev2|]. intros e (c0 & Hc0 & He). eauto.
      * intros who Hwho. destruct (Hf2 who Hwho) as (c0 & Hc0 & Hn). eauto.
    + split; [done|]. split; [done|].
      intros who' Hwho'. exists c. split; [by left|]. apply Hf. congruence.
Qed.

Lemma run_children_In (l : list agent) :
  ∀ t w r, In r (run_children run l t w) → ∃ c t', In c l ∧ r = run c t' w.
Proof.
  induction l as [|c l IH]; intros t w r; simpl; [done|].
  intros [<-|Hr]; [by eauto|].
  destruct (IH _ _ _ Hr) as (c0 & t' & Hc0 & ->). eauto.
Qed.

Lemma first_failure_In (os : list outcome) (who : string) :
  first_failure os = Failed who → In (Failed who) os.
Proof.
  induction os as [|[|a] os IH]; simpl; [done| |].
  - intros H. right. by apply IH.
  - intros [= ->]. by left.
Qed.

Lemma run_parallel_sound (name : string) (l : list agent) :
  (∀ c, In c l → ∀ t w, sound (E c) (N c) w (run c t w)) →
  ∀ t w, sound (λ e, ∃ c, In c l ∧ E c e) (λ a, ∃ c, In c l ∧ N c a) w
               (run_parallel orc run name l t w).
Proof.
  intros Hl t w. unfold run_parallel. split; [done|]. split; simpl.
  - apply Forall_forall. intros e He. apply list_elem_of_In in He.
    apply interleave_In in He as (q & Hq & He).
    apply in_map_iff in Hq as (r & <- & Hr).
    apply run_children_In in Hr as (c & t' & Hc & ->).
    exists c. split; [done|].
    destruct (Hl c Hc t' w) as (_ & Hev & _).
    rewrite Forall_forall in Hev. by apply Hev, list_elem_of_In.
  - intros who Hwho. apply first_failure_In, in_map_iff in Hwho as (r & Hout & Hr).
    apply run_children_In in Hr as (c & t' & Hc & ->).
    exists c. split; [done|]. by apply (Hl c Hc t' w).
Qed.

Lemma run_loop_sound (body : nat → world → result) (name : string)
    (EB : event → Prop) (NB : string → Prop) :
  (∀ t w, sound EB NB w (body t w)) →
  ∀ remaining k t w,
    sound (λ e, EB e ∨ ∃ j, e = ev_iteration name j) NB w
          (run_loop body name remaining k t w).
Proof.
  intros Hb. induction remaining as [|n IH]; intros k t w; simpl.
  - split; [done|]. split; [constructor|done].
  - destruct (Hb t w) as (Hw & Hev & Hf).
    assert (Forall (λ e, EB e ∨ ∃ j, e = ev_iteration name j)
                   (ev_iteration name k :: res_events (body t w))) as Hev'.
    { constructor; [right; by exists k|].
      eapply Forall_impl; [exact Hev|]. auto. }
    destruct (res_outcome (body t w)) as [|who] eqn:Hout.
    + destruct (ctx_escalate (ctx (res_world (body t w)))).
      * split; [done|]. split; [done|]. done.
      * destruct (IH (S k) (res_turn (body t w)) (res_world (body t w)))
          as (Hw2 & Hev2 & Hf2).
        split; [|split]; simpl.
        -- rewrite replay_app. fold (replay (res_events (body t w)) w).
           by rewrite <- Hw.
        -- constructor; [right; by exists k|].
           apply Forall_app. split; [|done]. by inversion Hev'.
        -- done.
    + split; [done|]. split; [done|]. simpl. intros who' [= <-]. by apply Hf.
Qed.

Lemma run_llm_sound (run_subs : nat → world → result) (name : string)
    (tools : list tool) (ES : event → Prop) (NS : string → Prop) :
  (∀ t w, sound ES NS w (run_subs t w)) →
  ∀ t w,
    sound (λ e, ES e ∨ e = ev_failed name
                ∨ ∃ c, e = ev_tool name c ∧ In (tool_of_call c) tools)
          (λ a, NS a ∨ a = name) w
          (run_llm orc run_subs name tools t w).
Proof.
  intros Hs t w. unfold run_llm.
  set (evs := map (ev_tool name)
                  (filter (λ c, tool_of_call c ∈ tools) (calls (ask orc t name w)))).
  assert (Forall (λ e, ES e ∨ e = ev_failed name
                       ∨ ∃ c, e = ev_tool name c ∧ In (tool_of_call c) tools) evs)
    as Hevs.
  { apply Forall_forall. intros e He. right. right.
    apply list_elem_of_In, in_map_iff in He as (c & <- & Hc).
    exists c. split; [done|].
    apply list_elem_of_In, list_elem_of_filter in Hc as [Hc _].
    by apply list_elem_of_In. }
  destruct (failed (ask orc t name w)).
  - split; [|split]; simpl.
    + by rewrite replay_app.
    + apply Forall_app. split; [done|]. constructor; [auto|constructor].
    + intros who [= <-]. by right.
  - destruct (Hs (S t) (replay evs w)) as (Hw & Hev & Hf).
    split; [|split]; simpl.
    + by rewrite replay_app.
    + apply Forall_app. split; [done|].
      eapply Forall_impl; [exact Hev|]. auto.
    + intros who Hwho. left. by apply Hf.
Qed.

End Composites.

(** ** Soundness of a run *)

Lemma event_from_child (l : list agent) (c : agent) (e : event) (u : agent) :
  In c l → sub_agents_of u = l → event_from c e → event_from u e.
Proof.
  intros Hc <-. destruct e as [n k|a x|a]; simpl; intros He.
  - destruct u; simpl; try right; apply in_flat_map; eauto.
  - destruct u; simpl; try (apply in_or_app; right); apply in_flat_map; eauto.
  - destruct u; simpl; try right; apply in_flat_map; eauto.
Qed.

Lemma llm_names_child (l : list agent) (c : agent) (a : string) (u : agent) :
  In c l → sub_agents_of u = l → In a (llm_names c) → In a (llm_names u).
Proof.
  intros Hc <- Ha. destruct u; simpl; try right; apply in_flat_map; eauto.
Qed.

(** Every run is consistent: its world is the replay of its events, each
    event comes from an agent of the graph that may produce it, and a
    failure names a reasoning agent of the graph. *)
Lemma run_sound (orc : oracle) (u : agent) :
  ∀ t w, sound (event_from u) (λ a, In a (llm_names u)) w (run orc u t w).
Proof.
  induction u as [n g d i tl l IH|n d l IH|n d l IH|n d l m IH]
    using agent_nested_ind; intros t w; rewrite Forall_forall in IH.
  - eapply sound_mono; [| |apply (run_llm_sound orc (run_sequence (run orc) l) n tl);
                           apply (run_sequence_sound (run orc)
                                    event_from (λ c a, In a (llm_names c)))].
    + intros e [(c & Hc & He)|[->|(x & -> & Hx)]]; simpl.
      * by eapply (event_from_child l c).
      * by left.
      * apply in_or_app. left. apply in_map_iff. eauto.
    + intros a [(c & Hc & Ha)| ->]; simpl; [right|by left].
      apply in_flat_map; eauto.
    + intros c Hc. by apply IH, list_elem_of_In.
  - eapply sound_mono; [| |apply (run_sequence_sound (run orc)
                                    event_from (λ c a, In a (llm_names c)))].
    + intros e (c & Hc & He). by eapply (event_from_child l c).
    + intros a (c & Hc & Ha). by eapply (llm_names_child l c).
    + intros c Hc. by apply IH, list_elem_of_In.
  - eapply sound_mono; [| |apply (run_parallel_sound orc (run orc)
                                    event_from (λ c a, In a (llm_names c)))].
    + intros e (c & Hc & He). by eapply (event_from_child l c).
    + intros a (c & Hc & Ha). by eapply (llm_names_child l c).
    + intros c Hc. by apply IH, list_elem_of_In.
  - eapply sound_mono; [| |apply (run_loop_sound (run_sequence (run orc) l) n);
                           apply (run_sequence_sound (run orc)
                                    event_from (λ c a, In a (llm_names c)))].
    + intros e [(c & Hc & He)|[j ->]]; simpl; [|by left].
      by eapply (event_from_child l c).
    + intros a (c & Hc & Ha). by eapply (llm_names_child l c).
    + intros c Hc. by apply IH, list_elem_of_In.
Qed.

End RunFacts.

(** ** The loop *)

Module LoopFacts.
Import Tools.
Import Agents.
Import Runner.
Import RunFacts.

Lemma iteration_indices_app (name : string) (a b : list event) :
  iteration_indices name (a ++ b)
  = iteration_indices name a ++ iteration_indices name b.
Proof.
  induction a as [|e a IH]; [done|].
  destruct e as [n k|x c|x]; simpl; [|done|done].
  case_bool_decide; [|done]. by rewrite IH.
Qed.

Lemma iteration_indices_suffix (name : string) (a b : list event) :
  iteration_indices name (a ++ b) = [] → iteration_indices name b = [].
Proof.
  rewrite iteration_indices_app. by intros [_ ?]%app_eq_nil.
Qed.

Lemma iteration_indices_from (u : agent) (name : string) (evs : list event) :
  Forall (event_from u) evs → ¬ In name (loop_names u) →
  iteration_indices name evs = [].
Proof.
  intros Hev Hn. induction Hev as [|e evs He _ IH]; [done|].
  destruct e as [n k|x c|x]; simpl; [|done|done].
  case_bool_decide as Hnk; [|done]. subst n. by destruct Hn.
Qed.

Lemma iteration_indices_plain (name : string) (evs : list event) :
  Forall (λ e, plain e ∨ is_write e) evs → iteration_indices name evs = [].
Proof.
  induction 1 as [|e evs He _ IH]; [done|].
  destruct e as [n k|x c|x]; simpl; [|done|done]. by destruct He.
Qed.

Section Loop.

Variable body : nat → world → result.
Variable name : string.

Hypothesis body_replay :
  ∀ t w, res_world (body t w) = replay (res_events (body t w)) w.
Hypothesis body_no_iteration :
  ∀ t w, iteration_indices name (res_events (body t w)) = [].

(** The loop starts the iterations [k], [k+1], ... and at most
    [remaining] of them. *)
Lemma run_loop_indices (remaining : nat) :
  ∀ k t w, ∃ n : nat, (n ≤ remaining)%nat
    ∧ iteration_indices name (res_events (run_loop body name remaining k t w))
      = seq k n.
Proof.
  induction remaining as [|rem IH]; intros k t w; simpl.
  - by exists 0.
  - destruct (res_outcome (body t w)) as [|who].
    + destruct (ctx_escalate (ctx (res_world (body t w)))).
      * exists 1. split; [lia|]. simpl.
        by rewrite bool_decide_eq_true_2, body_no_iteration.
      * destruct (IH (S k) (res_turn (body t w)) (res_world (body t w)))
          as (n & Hn & Hidx).
        exists (S n). split; [lia|]. simpl.
        rewrite bool_decide_eq_true_2 by done.
        by rewrite iteration_indices_app, body_no_iteration, Hidx.
    + exists 1. split; [lia|]. simpl.
      by rewrite bool_decide_eq_true_2, body_no_iteration.
Qed.

(** With the signal unset on entry, a loop that completes has run every
    iteration it was allowed: nothing the tools do sets the signal. *)
Lemma run_loop_runs_out (remaining : nat) :
  ∀ k t w,
    ctx_escalate (ctx w) = false →
    res_outcome (run_loop body name remaining k t w) = Completed →
    iteration_indices name (res_events (run_loop body name remaining k t w))
    = seq k remaining.
Proof.
  induction remaining as [|rem IH]; intros k t w Hw; simpl; [done|].
  assert (ctx_escalate (ctx (res_world (body t w))) = false) as Hsig
    by (by rewrite body_replay, replay_escalate).
  destruct (res_outcome (body t w)) as [|who]; [|done].
  rewrite Hsig. simpl. rewrite bool_decide_eq_true_2 by done.
  intros Hout. rewrite iteration_indices_app, body_no_iteration. simpl.
  f_equal. by apply IH.
Qed.

End Loop.

End LoopFacts.

(** ** The court *)

Module CourtFacts.
Import Tools.
Import Agents.
Import Runner.
Import RunFacts.
Import LoopFacts.

Section Court.

Variable orc : oracle.
Variable model_name : option string.

Lemma run_sequence_single (f : agent → nat → world → result) (c : agent)
    (t : nat) (w : world) :
  res_outcome (run_sequence f [c] t w) = res_outcome (f c t w)
  ∧ res_events (run_sequence f [c] t w) = res_events (f c t w).
Proof.
  simpl. destruct (res_outcome (f c t w)) eqn:Hout; simpl; [|done].
  by rewrite app_nil_r.
Qed.

Lemma run_sequence_pair (f : agent → nat → world → result) (a b : agent)
    (t : nat) (w : world) :
  match res_outcome (f a t w) with
  | Failed who =>
      res_outcome (run_sequence f [a; b] t w) = Failed who
      ∧ res_events (run_sequence f [a; b] t w) = res_events (f a t w)
  | Completed =>
      res_outcome (run_sequence f [a; b] t w)
      = res_outcome (f b (res_turn (f a t w)) (res_world (f a t w)))
      ∧ res_events (run_sequence f [a; b] t w)
        = res_events (f a t w)
          ++ res_events (f b (res_turn (f a t w)) (res_world (f a t w)))
  end.
Proof.
  simpl. destruct (res_outcome (f a t w)) eqn:Ha; simpl; [|done].
  destruct (res_outcome (f b _ _)) eqn:Hb; simpl; [|done].
  by rewrite app_nil_r.
Qed.

(** A reasoning agent without sub-agents: its tool events, then possibly
    its failure. *)
Lemma run_llm_leaf (f : agent → nat → world → result) (name : string)
    (tools : list tool) (t : nat) (w : world) :
  ∃ evs,
    Forall (λ e, ∃ c, e = ev_tool name c ∧ In (tool_of_call c) tools) evs
    ∧ ((res_outcome (run_llm orc (run_sequence f []) name tools t w) = Failed name
        ∧ res_events (run_llm orc (run_sequence f []) name tools t w)
          = evs ++ [ev_failed name])
       ∨ (res_outcome (run_llm orc (run_sequence f []) name tools t w) = Completed
          ∧ res_events (run_llm orc (run_sequence f []) name tools t w) = evs)).
Proof.
  unfold run_llm.
  set (evs := map (ev_tool name)
                  (filter (λ c, tool_of_call c ∈ tools) (calls (ask orc t name w)))).
  exists evs. split.
  - apply Forall_forall. intros e He.
    apply list_elem_of_In, in_map_iff in He as (c & <- & Hc).
    exists c. split; [done|].
    apply list_elem_of_In, list_elem_of_filter in Hc as [Hc _].
    by apply list_elem_of_In.
  - destruct (failed (ask orc t name w)); simpl; [by left|right].
    by rewrite app_nil_r.
Qed.

(** A reasoning agent: its tool events, then its failure or the run of
    its sub-agents. *)
Lemma run_llm_cases (subs : nat → world → result) (name : string)
    (tools : list tool) (t : nat) (w : world) :
  ∃ evs,
    Forall (λ e, ∃ c, e = ev_tool name c ∧ In (tool_of_call c) tools) evs
    ∧ ((res_outcome (run_llm orc subs name tools t w) = Failed name
        ∧ res_events (run_llm orc subs name tools t w) = evs ++ [ev_failed name])
       ∨ (res_outcome (run_llm orc subs name tools t w)
          = res_outcome (subs (S t) (replay evs w))
          ∧ res_events (run_llm orc subs name tools t w)
            = evs ++ res_events (subs (S t) (replay evs w)))).
Proof.
  unfold run_llm.
  set (evs := map (ev_tool name)
                  (filter (λ c, tool_of_call c ∈ tools) (calls (ask orc t name w)))).
  exists evs. split.
  - apply Forall_forall. intros e He.
    apply list_elem_of_In, in_map_iff in He as (c & <- & Hc).
    exists c. split; [done|].
    apply list_elem_of_In, list_elem_of_filter in Hc as [Hc _].
    by apply list_elem_of_In.
  - destruct (failed (ask orc t name w)); simpl; [by left|by right].
Qed.

Lemma run_trial_eq (t : nat) (w : world) :
  run orc (trial_and_review model_name) t w
  = run_loop (run_sequence (run orc)
                [investigation_team model_name; judge model_name])
             "trial_and_review" 3 1 t w.
Proof. reflexivity. Qed.

Lemma trial_body_sound (t : nat) (w : world) :
  sound (event_from (SequentialAgent "" ""
                       [investigation_team model_name; judge model_name]))
        (λ a, In a ["admirer_researcher"; "critic_researcher"; "judge"]) w
        (run_sequence (run orc)
           [investigation_team model_name; judge model_name] t w).
Proof.
  apply (run_sound orc (SequentialAgent "" ""
                          [investigation_team model_name; judge model_name])).
Qed.

Lemma trial_body_no_iteration (t : nat) (w : world) :
  iteration_indices "trial_and_review"
    (res_events (run_sequence (run orc)
                   [investigation_team model_name; judge model_name] t w)) = [].
Proof.
  destruct (trial_body_sound t w) as (_ & Hev & _).
  eapply iteration_indices_from; [exact Hev|]. simpl. tauto.
Qed.

Lemma trial_body_replay (t : nat) (w : world) :
  res_world (run_sequence (run orc)
               [investigation_team model_name; judge model_name] t w)
  = replay (res_events (run_sequence (run orc)
                          [investigation_team model_name; judge model_name] t w)) w.
Proof. by destruct (trial_body_sound t w) as (Hw & _ & _). Qed.

Lemma trial_indices (t : nat) (w : world) :
  ∃ n : nat, (n ≤ 3)%nat
    ∧ iteration_indices "trial_and_review"
        (res_events (run orc (trial_and_review model_name) t w)) = seq 1 n.
Proof.
  rewrite run_trial_eq. apply run_loop_indices. apply trial_body_no_iteration.
Qed.

Lemma trial_runs_out (t : nat) (w : world) :
  ctx_escalate (ctx w) = false →
  res_outcome (run orc (trial_and_review model_name) t w) = Completed →
  iteration_indices "trial_and_review"
    (res_events (run orc (trial_and_review model_name) t w)) = [1; 2; 3].
Proof.
  rewrite run_trial_eq. intros Hw Hout.
  by rewrite (run_loop_runs_out _ _ trial_body_replay trial_body_no_iteration 3 1 t w).
Qed.

Lemma trial_no_write (t : nat) (w : world) :
  Forall (λ e, ¬ is_write e)
         (res_events (run orc (trial_and_review model_name) t w)).
Proof.
  destruct (run_sound orc (trial_and_review model_name) t w) as (_ & Hev & _).
  eapply Forall_impl; [exact Hev|].
  intros [n k|a c|a]; simpl; try tauto.
  destruct c; simpl; try tauto.
  intros H _. repeat destruct H as [H|H]; try discriminate; done.
Qed.

Lemma trial_failed (t : nat) (w : world) (who : string) :
  res_outcome (run orc (trial_and_review model_name) t w) = Failed who →
  who ≠ "verdict_writer".
Proof.
  destruct (run_sound orc (trial_and_review model_name) t w) as (_ & _ & Hf).
  intros H%Hf ->. simpl in H.
  repeat destruct H as [H|H]; try discriminate; done.
Qed.

Lemma run_root_eq (t : nat) (w : world) :
  run orc (root_agent model_name) t w
  = run_llm orc (run_sequence (run orc) [historical_court model_name])
            "inquiry_clerk" [tool_append_to_state] t w.
Proof. reflexivity. Qed.

Lemma run_court_eq (t : nat) (w : world) :
  run orc (historical_court model_name) t w
  = run_sequence (run orc)
      [trial_and_review model_name; verdict_writer model_name] t w.
Proof. reflexivity. Qed.

Lemma run_writer_eq (t : nat) (w : world) :
  run orc (verdict_writer model_name) t w
  = run_llm orc (run_sequence (run orc) []) "verdict_writer" [tool_write_file] t w.
Proof. reflexivity. Qed.

(** The events of a run of the whole court: the clerk's, then the trial's,
    then the scribe's. *)
Lemma court_run_shape (t : nat) (w : world) :
  ∃ clerk tr wr,
    res_events (run orc (root_agent model_name) t w) = clerk ++ tr ++ wr
    ∧ Forall plain clerk
    ∧ (tr = [] ∨ ∃ t1 w1,
         tr = res_events (run orc (trial_and_review model_name) t1 w1))
    ∧ Forall (λ e, plain e ∨ is_write e) wr
    ∧ (∀ who, res_outcome (run orc (root_agent model_name) t w) = Failed who →
              who ≠ "verdict_writer" → Forall plain wr).
Proof.
  rewrite run_root_eq.
  destruct (run_llm_cases (run_sequence (run orc) [historical_court model_name])
              "inquiry_clerk" [tool_append_to_state] t w)
    as (clerk & Hclerk0 & Hcase0).
  assert (Forall plain clerk) as Hclerk.
  { eapply Forall_impl; [exact Hclerk0|]. intros e (c & -> & Hc).
    destruct c; try exact I; destruct Hc as [Hc|[]]; discriminate. }
  exists clerk. destruct Hcase0 as [[Ho He]|[Ho He]]; rewrite Ho, He; clear Ho He.
  - exists [], [ev_failed "inquiry_clerk"].
    split; [done|]. split; [done|]. split; [by left|]. split.
    + constructor; [left; exact I|constructor].
    + intros who _ _. constructor; [exact I|constructor].
  - destruct (run_sequence_single (run orc) (historical_court model_name)
                (S t) (replay clerk w)) as [Ho He].
    rewrite Ho, He. clear Ho He.
    rewrite run_court_eq.
    pose proof (run_sequence_pair (run orc) (trial_and_review model_name)
                  (verdict_writer model_name) (S t) (replay clerk w)) as Hpair.
    remember (run orc (trial_and_review model_name) (S t) (replay clerk w)) as r1
      eqn:Hr1.
    destruct (res_outcome r1) as [|who1] eqn:Hout1.
    + destruct Hpair as [Ho He]. rewrite Ho, He. clear Ho He.
      rewrite run_writer_eq.
      destruct (run_llm_leaf (run orc) "verdict_writer" [tool_write_file]
                  (res_turn r1) (res_world r1)) as (evs & Hevs & Hcase).
      assert (Forall (λ e, plain e ∨ is_write e) evs) as Hwr.
      { eapply Forall_impl; [exact Hevs|]. intros e (c & -> & Hc).
        destruct c; try (destruct Hc as [Hc|[]]; discriminate).
        right. exact I. }
      destruct Hcase as [[Ho He]|[Ho He]]; rewrite Ho, He; clear Ho He.
      * exists (res_events r1), (evs ++ [ev_failed "verdict_writer"]).
        split; [reflexivity|]. split; [exact Hclerk|].
        split; [right; exists (S t), (replay clerk w); by rewrite Hr1|].
        split.
        -- apply Forall_app. split; [exact Hwr|].
           constructor; [left; exact I|constructor].
        -- intros who Hwho Hne. injection Hwho as <-. by destruct Hne.
      * exists (res_events r1), evs.
        split; [reflexivity|]. split; [exact Hclerk|].
        split; [right; exists (S t), (replay clerk w); by rewrite Hr1|].
        split; [exact Hwr|]. intros who Hwho. discriminate.
    + destruct Hpair as [Ho He]. rewrite Ho, He. clear Ho He.
      exists (res_events r1), []. rewrite app_nil_r.
      split; [reflexivity|]. split; [exact Hclerk|].
      split; [right; exists (S t), (replay clerk w); by rewrite Hr1|].
      split; [constructor|]. intros who _ _. constructor.
Qed.

End Court.

End CourtFacts.

(** * The claims about the agent graph and its runs *)

Module RunClaims.
Import Tools.
Import Agents.
Import Runner.
Import Samples.
Import RunFacts.
Import LoopFacts.
Import CourtFacts.

Lemma plain_no_write (evs : list event) :
  Forall plain evs → Forall (λ e, ¬ is_write e) evs.
Proof.
  intros H. eapply Forall_impl; [exact H|].
  intros [n k|a c|a]; simpl; try tauto. destruct c; tauto.
Qed.

Lemma plain_indices (name : string) (evs : list event) :
  Forall plain evs → iteration_indices name evs = [].
Proof.
  intros H. apply iteration_indices_plain.
  eapply Forall_impl; [exact H|]. auto.
Qed.

(** C2.  Whatever the agents do - exit signalled or not, failure or not -
    a run of the court starts the iterations 1, 2, ..., n of
    [trial_and_review] for some n that is at most 3; the same holds for the
    loop run on its own. *)
Theorem trial_and_review_at_most_three (orc : oracle) (model_name : option string)
    (t : nat) (w : world) :
  (∃ n : nat, (n ≤ 3)%nat
     ∧ iteration_indices "trial_and_review"
         (res_events (run orc (root_agent model_name) t w)) = seq 1 n)
  ∧ (∃ n : nat, (n ≤ 3)%nat
       ∧ iteration_indices "trial_and_review"
           (res_events (run orc (trial_and_review model_name) t w)) = seq 1 n).
Proof.
  split; [|apply trial_indices].
  destruct (court_run_shape orc model_name t w)
    as (clerk & tr & wr & -> & Hclerk & Htr & Hwr & _).
  rewrite !iteration_indices_app, (plain_indices _ clerk),
    (iteration_indices_plain _ wr), app_nil_r by done.
  destruct Htr as [->|(t1 & w1 & ->)]; [exists 0; split; [lia|done]|].
  apply trial_indices.
Qed.

(** C3 does not hold of this code.  [exit_loop] assigns the attribute
    [exit_loop] of its context, which the loop does not look at; the signal
    the loop looks at is assigned by none of the tools.  So a trial that
    starts with the signal unset and in which no agent fails runs all three
    iterations, whatever the judge invokes, and the attribute stays set
    without effect. *)
Theorem exit_loop_does_not_end_the_trial (orc : oracle) (model_name : option string)
    (t : nat) (w : world) :
  ctx_escalate (ctx w) = false →
  res_outcome (run orc (trial_and_review model_name) t w) = Completed →
  iteration_indices "trial_and_review"
    (res_events (run orc (trial_and_review model_name) t w)) = [1; 2; 3]
  ∧ (Exists is_exit (res_events (run orc (trial_and_review model_name) t w)) →
     ctx_exit_loop (ctx (res_world (run orc (trial_and_review model_name) t w)))
     = true)
  ∧ ctx_escalate (ctx (res_world (run orc (trial_and_review model_name) t w)))
    = false.
Proof.
  intros Hw Hout. split; [by apply trial_runs_out|].
  destruct (run_sound orc (trial_and_review model_name) t w) as (Hrw & _ & _).
  rewrite Hrw. split.
  - apply replay_flag_exit.
  - by rewrite replay_escalate.
Qed.

Lemma exit_loop_does_not_end_the_trial_witness :
  ctx_escalate (ctx fresh_world) = false
  ∧ res_outcome (run (court_oracle 1) (trial_and_review None) 0 fresh_world)
    = Completed
  ∧ res_events (run (court_oracle 1) (trial_and_review None) 0 fresh_world)
    = [ev_iteration "trial_and_review" 1;
       ev_tool "critic_researcher" (call_wikipedia "Example criticism");
       ev_tool "admirer_researcher" (call_wikipedia "Example achievements");
       ev_tool "admirer_researcher" (call_append_to_state "pos_data" "won");
       ev_tool "critic_researcher" (call_append_to_state "neg_data" "lost");
       ev_tool "judge" call_exit_loop;
       ev_iteration "trial_and_review" 2;
       ev_tool "critic_researcher" (call_wikipedia "Example criticism");
       ev_tool "admirer_researcher" (call_wikipedia "Example achievements");
       ev_tool "admirer_researcher" (call_append_to_state "pos_data" "won");
       ev_tool "critic_researcher" (call_append_to_state "neg_data" "lost");
       ev_tool "judge" call_exit_loop;
       ev_iteration "trial_and_review" 3;
       ev_tool "critic_researcher" (call_wikipedia "Example criticism");
       ev_tool "admirer_researcher" (call_wikipedia "Example achievements");
       ev_tool "admirer_researcher" (call_append_to_state "pos_data" "won");
       ev_tool "critic_researcher" (call_append_to_state "neg_data" "lost");
       ev_tool "judge" call_exit_loop]
  ∧ iteration_indices "trial_and_review"
      (res_events (run (court_oracle 1) (trial_and_review None) 0 fresh_world))
    = [1; 2; 3].
Proof.
  assert (ctx_escalate (ctx fresh_world) = false) as Hw by reflexivity.
  assert (res_outcome (run (court_oracle 1) (trial_and_review None) 0 fresh_world)
          = Completed) as Hout by (vm_compute; reflexivity).
  split; [exact Hw|]. split; [exact Hout|].
  split; [vm_compute; reflexivity|].
  exact (proj1 (exit_loop_does_not_end_the_trial (court_oracle 1) None 0
                  fresh_world Hw Hout)).
Defined.

(** C6.  [verdict_writer] is the only agent of the court that holds
    [write_file], and it is the last step of [historical_court]; every
    [write_file] invocation of a run is its own.  So when a run fails at any
    other agent, no [write_file] was invoked and the file system is as it
    was before the run: no report is produced. *)
Theorem no_report_on_upstream_failure (orc : oracle) (model_name : option string)
    (t : nat) (w : world) (who : string) :
  res_outcome (run orc (root_agent model_name) t w) = Failed who →
  who ≠ "verdict_writer" →
  (∀ a, In (a, tool_write_file) (holdings (root_agent model_name)) →
        a = "verdict_writer")
  ∧ last (sub_agents_of (historical_court model_name))
    = Some (verdict_writer model_name)
  ∧ (∀ a d f c,
       In (ev_tool a (call_write_file d f c))
          (res_events (run orc (root_agent model_name) t w)) →
       a = "verdict_writer")
  ∧ Forall (λ e, ¬ is_write e) (res_events (run orc (root_agent model_name) t w))
  ∧ files (res_world (run orc (root_agent model_name) t w)) = files w.
Proof.
  intros Hfail Hwho.
  assert (∀ a, In (a, tool_write_file) (holdings (root_agent model_name)) →
               a = "verdict_writer") as Hhold.
  { intros a Ha. simpl in Ha.
    repeat destruct Ha as [Ha|Ha]; try discriminate; try done.
    by injection Ha. }
  destruct (run_sound orc (root_agent model_name) t w) as (Hw & Hfrom & _).
  assert (Forall (λ e, ¬ is_write e)
                 (res_events (run orc (root_agent model_name) t w))) as Hnw.
  { destruct (court_run_shape orc model_name t w)
      as (clerk & tr & wr & Hev & Hclerk & Htr & _ & Hwr).
    rewrite Hev. apply Forall_app. split; [by apply plain_no_write|].
    apply Forall_app. split; [|apply plain_no_write; by apply (Hwr who)].
    destruct Htr as [->|(t1 & w1 & ->)]; [constructor|apply trial_no_write]. }
  split; [exact Hhold|]. split; [reflexivity|]. split; [|split; [exact Hnw|]].
  - intros a d f c Hin. apply Hhold.
    rewrite Forall_forall in Hfrom.
    apply (Hfrom (ev_tool a (call_write_file d f c))). by apply list_elem_of_In.
  - rewrite Hw. by apply replay_files.
Qed.

Lemma no_report_on_upstream_failure_witness :
  res_outcome (run failing_critic_oracle (root_agent None) 0 fresh_world)
  = Failed "critic_researcher"
  ∧ "critic_researcher" ≠ "verdict_writer"
  ∧ files (res_world (run failing_critic_oracle (root_agent None) 0 fresh_world))
    = files fresh_world.
Proof.
  assert (res_outcome (run failing_critic_oracle (root_agent None) 0 fresh_world)
          = Failed "critic_researcher") as H by (vm_compute; reflexivity).
  assert ("critic_researcher" ≠ "verdict_writer") as Hne by discriminate.
  split; [exact H|]. split; [exact Hne|].
  exact (proj2 (proj2 (proj2 (proj2
    (no_report_on_upstream_failure failing_critic_oracle None 0 fresh_world
       "critic_researcher" H Hne))))).
Defined.

(** C7.  The reasoning agents of the court are the clerk, the two
    researchers, the judge and the scribe, and each of them is configured
    with 2 attempts and an initial delay of 1. *)
Theorem retry_policy_everywhere (model_name : option string) :
  map agent_name (llm_agents (root_agent model_name))
  = ["inquiry_clerk"; "admirer_researcher"; "critic_researcher"; "judge";
     "verdict_writer"]
  ∧ Forall (λ a, retry_of a = Some (mkRetry 1 2)
                 ∧ attempts (mkRetry 1 2) = 2 ∧ initial_delay (mkRetry 1 2) = 1)
           (llm_agents (root_agent model_name)).
Proof.
  split; [reflexivity|]. repeat constructor.
Qed.

(** A judge that is never content: the trial runs its three iterations
    and the scribe still writes the report. *)
Example three_iterations_then_verdict :
  let r := run (court_oracle 9) (root_agent None) 0 fresh_world in
  res_outcome r = Completed
  ∧ iteration_indices "trial_and_review" (res_events r) = [1; 2; 3]
  ∧ read_file (files (res_world r)) "verdicts/Example.txt" = Some "report".
Proof. vm_compute. done. Qed.

(** A judge that is content after two rounds and says so: the third
    round is run all the same. *)
Example content_judge_still_three_iterations :
  let r := run (court_oracle 2) (root_agent None) 0 fresh_world in
  iteration_indices "trial_and_review" (res_events r) = [1; 2; 3]
  ∧ ctx_exit_loop (ctx (res_world r)) = true
  ∧ state (ctx (res_world r)) !! "pos_data"
    = Some (PList [PStr "won"; PStr "won"; PStr "won"]).
Proof. vm_compute. done. Qed.

End RunClaims.

(** * Further properties of the tools *)

Module MoreAppendFacts.
Import Tools.
Import Samples.
Import AppendFacts.
Import WriteFacts.
Import InvokeFacts.

(** The store after [append_to_state], whatever the field held. *)
Lemma append_to_state_store (field response : string) (w : world) :
  state (ctx (append_to_state field response w).2)
  = match py_add (dict_get (state (ctx w)) field (PList [])) (PList [PStr response]) with
    | Return v => <[field := v]> (state (ctx w))
    | Raise _ => state (ctx w)
    end.
Proof. rewrite append_to_state_eq. by destruct (py_add _ _). Qed.

Lemma dict_get_insert_ne (s : gmap string pyval) (f g : string) (v d : pyval) :
  f ≠ g → dict_get (<[f := v]> s) g d = dict_get s g d.
Proof. intros H. unfold dict_get. by rewrite lookup_insert_ne. Qed.

(** Responses appended one after the other end up in the list in the order
    of the calls, after what was there; nothing else in the store, the file
    system or the flag changes, and the log has one line per call. *)
Theorem append_each_in_order (field : string) (responses : list string) :
  ∀ (w : world) (l : list pyval),
    dict_get (state (ctx w)) field (PList []) = PList l →
    dict_get (state (ctx (append_each field responses w))) field (PList [])
    = PList (l ++ map PStr responses)
    ∧ (∀ key, key ≠ field →
         state (ctx (append_each field responses w)) !! key = state (ctx w) !! key)
    ∧ files (append_each field responses w) = files w
    ∧ ctx_exit_loop (ctx (append_each field responses w)) = ctx_exit_loop (ctx w)
    ∧ log (append_each field responses w)
      = log w ++ map (λ r, "[Added to " +:+ field +:+ "] " +:+ r) responses.
Proof.
  induction responses as [|r rs IH]; intros w l Hl.
  - simpl. rewrite !app_nil_r. done.
  - unfold append_each. simpl. fold (append_each field rs (append_to_state field r w).2).
    rewrite (append_to_state_list _ _ _ l Hl). simpl.
    match goal with |- context [append_each field rs ?w1] =>
      destruct (IH w1 (l ++ [PStr r])) as (H1 & H2 & H3 & H4 & H5) end.
    { unfold dict_get. simpl. by rewrite lookup_insert_eq. }
    rewrite H1, H3, H4, H5. simpl. rewrite <- !app_assoc. simpl.
    repeat split; try done.
    intros key Hkey. rewrite (H2 key Hkey). simpl. by rewrite lookup_insert_ne.
Qed.

Lemma append_each_in_order_witness :
  dict_get (state (ctx findings_world)) "pos_data" (PList []) = PList [PStr "won"]
  ∧ dict_get (state (ctx (append_each "pos_data" ["roads"; "laws"] findings_world)))
             "pos_data" (PList [])
    = PList [PStr "won"; PStr "roads"; PStr "laws"].
Proof.
  split; [reflexivity|].
  destruct (append_each_in_order "pos_data" ["roads"; "laws"] findings_world
              [PStr "won"]) as (H & _); [reflexivity|exact H].
Defined.

(** Two calls on different fields leave the same store, whichever comes
    first, even when one of the calls raises. *)
Lemma append_to_state_store_commutes (w : world) (f1 r1 f2 r2 : string) :
  f1 ≠ f2 →
  state (ctx (append_to_state f2 r2 (append_to_state f1 r1 w).2).2)
  = state (ctx (append_to_state f1 r1 (append_to_state f2 r2 w).2).2).
Proof.
  intros Hne. rewrite !append_to_state_store.
  destruct (py_add (dict_get (state (ctx w)) f1 (PList [])) (PList [PStr r1]))
    as [v1|e1] eqn:H1;
  destruct (py_add (dict_get (state (ctx w)) f2 (PList [])) (PList [PStr r2]))
    as [v2|e2] eqn:H2;
  rewrite ?dict_get_insert_ne by done; rewrite ?H1, ?H2; try done.
  by apply insert_insert_ne.
Qed.

(** Each tool acts on the context through the context alone and on the
    file system through the file system alone. *)
Lemma invoke_ctx_after (c : tool_call) (w : world) :
  ctx (invoke c w) = ctx_after c (ctx w).
Proof.
  destruct c as [q|f r|d f x|]; simpl; try done.
  - rewrite append_to_state_eq. by destruct (py_add _ _).
  - apply write_file_ctx.
Qed.

Lemma invoke_files_after (c : tool_call) (w : world) :
  files (invoke c w) = files_after c (files w).
Proof.
  destruct c as [q|f r|d f x|]; simpl; try done.
  - apply append_to_state_files.
  - rewrite write_file_eq. simpl.
    destruct (makedirs _ _) as [[u|e] fs1]; [|done].
    by destruct (open_write _ _ _) as [[u'|e] fs2].
Qed.

Lemma ctx_after_commutes (c1 c2 : tool_call) (x : tool_context) :
  independent c1 c2 →
  ctx_after c1 (ctx_after c2 x) = ctx_after c2 (ctx_after c1 x).
Proof.
  destruct c1 as [q1|f1 r1|d1 g1 x1|], c2 as [q2|f2 r2|d2 g2 x2|]; simpl;
    try done.
  - intros Hne.
    pose proof (append_to_state_store_commutes
                  (mkWorld x (mkFS ∅ [] (mkPlatform true true None (λ _, None))) [])
                  f1 r1 f2 r2 Hne)
      as Hst.
    rewrite !append_to_state_store in Hst. simpl in Hst.
    destruct (py_add (dict_get (state x) f1 (PList [])) (PList [PStr r1]))
      as [v1|e1] eqn:H1;
    destruct (py_add (dict_get (state x) f2 (PList [])) (PList [PStr r2]))
      as [v2|e2] eqn:H2; simpl in *;
    rewrite ?dict_get_insert_ne in * by done; rewrite ?H1, ?H2 in *; simpl;
      try done.
    by rewrite Hst.
  - intros _. by destruct (py_add _ _).
  - intros _. by destruct (py_add _ _).
Qed.

Lemma files_after_commutes (c1 c2 : tool_call) (fs : filesystem) :
  independent c1 c2 →
  files_after c1 (files_after c2 fs) = files_after c2 (files_after c1 fs).
Proof.
  destruct c1 as [q1|f1 r1|d1 g1 x1|], c2 as [q2|f2 r2|d2 g2 x2|]; simpl; done.
Qed.

(** Two invocations that do not compete - any two tools, except two
    appends to the same field and two file writes - leave the same store,
    flag and file system whichever lands first.  In particular the findings
    that concurrent researchers file under different keys are all there
    whatever the schedule. *)
Theorem invoke_commutes (w : world) (c1 c2 : tool_call) :
  independent c1 c2 →
  ctx (invoke c1 (invoke c2 w)) = ctx (invoke c2 (invoke c1 w))
  ∧ files (invoke c1 (invoke c2 w)) = files (invoke c2 (invoke c1 w)).
Proof.
  intros Hind. rewrite !invoke_ctx_after, !invoke_files_after.
  split; [by apply ctx_after_commutes|by apply files_after_commutes].
Qed.

Lemma invoke_commutes_witness :
  independent (call_append_to_state "pos_data" "roads")
              (call_append_to_state "neg_data" "taxes")
  ∧ state (ctx (invoke (call_append_to_state "pos_data" "roads")
                  (invoke (call_append_to_state "neg_data" "taxes") fresh_world)))
    = state (ctx (invoke (call_append_to_state "neg_data" "taxes")
                    (invoke (call_append_to_state "pos_data" "roads") fresh_world))).
Proof.
  assert (independent (call_append_to_state "pos_data" "roads")
                      (call_append_to_state "neg_data" "taxes")) as Hind
    by (simpl; discriminate).
  split; [exact Hind|].
  destruct (invoke_commutes fresh_world _ _ Hind) as [H _].
  by rewrite H.
Defined.

(** Two appends to one field do compete: the order of the calls is the
    order in the list. *)
Example append_to_state_same_field_order :
  dict_get (state (ctx (append_each "pos_data" ["a"; "b"] fresh_world)))
           "pos_data" (PList [])
  ≠ dict_get (state (ctx (append_each "pos_data" ["b"; "a"] fresh_world)))
             "pos_data" (PList []).
Proof. vm_compute. discriminate. Qed.

(** Once set, the flag survives every tool invocation. *)
Lemma invoke_all_flag (cs : list tool_call) :
  ∀ w, ctx_exit_loop (ctx w) = true →
       ctx_exit_loop (ctx (invoke_all cs w)) = true.
Proof.
  induction cs as [|c cs IH]; intros w Hw; [done|].
  simpl. apply IH. rewrite invoke_flag. by destruct c.
Qed.

(** [exit_loop] returns its status, sets the flag and touches nothing else;
    a second call changes nothing more; and no tool invoked later clears
    the flag. *)
Theorem exit_loop_sets_flag_for_good (w : world) (later : list tool_call) :
  (exit_loop w).1 = Return (status_dict "exited loop")
  ∧ state (ctx (exit_loop w).2) = state (ctx w)
  ∧ files (exit_loop w).2 = files w
  ∧ log (exit_loop w).2 = log w
  ∧ exit_loop (exit_loop w).2 = exit_loop w
  ∧ ctx_exit_loop (ctx (invoke_all later (exit_loop w).2)) = true.
Proof.
  split; [reflexivity|]. split; [reflexivity|]. split; [reflexivity|].
  split; [reflexivity|]. split; [reflexivity|].
  by apply invoke_all_flag.
Qed.

End MoreAppendFacts.

(** ** More about the file system operations *)

Module MoreFSFacts.
Import PosixPath.
Import FS.
Import PathFacts.
Import FSFacts.

Lemma walk_prefix_dir (ns : gmap (list string) node) (a : list string) (t : string)
    (cur k : list string) :
  walk ns cur (a ++ [t]) = Return k →
  ∃ kd w, walk ns cur a = Return kd ∧ ns !! kd = Some (Dir w true)
          ∧ k = step kd t.
Proof.
  rewrite walk_app. destruct (walk ns cur a) as [kd|e]; [|done]. simpl.
  destruct (ns !! kd) as [[w []|? ?]|] eqn:Hkd; try done.
  case_bool_decide; [|done]. intros [= <-]. by exists kd, w.
Qed.

Lemma isdir_resolve (fs : filesystem) (d : string) :
  isdir fs d = true →
  ∃ k w x, resolve fs d = Return k ∧ nodes fs !! k = Some (Dir w x).
Proof.
  unfold isdir, stat. destruct (resolve fs d) as [k|e]; [|done].
  destruct (nodes fs !! k) as [[w x|w c]|] eqn:Hk; try done.
  - intros _. by exists k, w, x.
  - by destruct (ends_with_slash d).
Qed.

(** The directory part of a path that resolves exists. *)
Lemma resolve_dirname_exists (fs : filesystem) (p : string) (k : list string) :
  resolve fs p = Return k → (split p).2 ≠ "" → dirname p ≠ "" →
  exists_ fs (dirname p) = true.
Proof.
  intros (Hnul & Hp & Hlen & Hres)%resolve_walk Ht Hd.
  rewrite (segments_split p), filter_cons_True, filter_nil in Hres by done.
  apply walk_prefix_dir in Hres as (kd & w & Hwalk & Hkd & _).
  unfold exists_, stat. rewrite (walk_resolve fs (dirname p) kd).
  - by rewrite Hkd.
  - by apply dirname_has_nul.
  - done.
  - pose proof (dirname_length p). lia.
  - by rewrite (dirname_start p Hd).
Qed.

Lemma segments_empty_tail (p : string) :
  (split p).2 = "" → segments p = segments (dirname p).
Proof.
  intros Ht. rewrite (segments_split p), Ht.
  change (filter (λ t : string, t ≠ "") [""]) with (@nil string).
  by rewrite app_nil_r.
Qed.

(** A path with an empty last piece resolves like its directory part. *)
Lemma resolve_empty_tail (fs : filesystem) (p : string) (k : list string) :
  resolve fs p = Return k → (split p).2 = "" → dirname p ≠ "" →
  resolve fs (dirname p) = Return k.
Proof.
  intros (Hnul & Hp & Hlen & Hres)%resolve_walk Ht Hd.
  apply walk_resolve.
  - by apply dirname_has_nul.
  - done.
  - pose proof (dirname_length p). lia.
  - by rewrite (dirname_start p Hd), <- (segments_empty_tail p Ht).
Qed.

Lemma mkdir_exist_ok_existing (fs : filesystem) (d : string) :
  isdir fs d = true → mkdir_exist_ok fs d = (Return (), fs).
Proof.
  intros Hd. destruct (isdir_resolve _ _ Hd) as (k & w & x & Hres & Hk).
  unfold mkdir_exist_ok, mkdir. by rewrite Hres, Hk, Hd.
Qed.

(** [os.makedirs] on a directory that exists changes nothing. *)
Lemma makedirs_existing (fs : filesystem) (d : string) :
  isdir fs d = true → makedirs fs d = (Return (), fs).
Proof.
  intros Hd. pose proof (makedirs_spec fs d) as Hspec.
  destruct (isdir_resolve _ _ Hd) as (k & w & x & Hres & Hk).
  simpl in Hspec.
  destruct (split d) as [h1 t1] eqn:Hs1.
  assert (dirname d = h1) as Hdn by (unfold dirname; by rewrite Hs1).
  assert ((split d).2 = t1) as Ht1 by by rewrite Hs1.
  destruct (bool_decide (t1 = "")) eqn:Hb.
  - apply bool_decide_eq_true in Hb. subst t1.
    destruct (split h1) as [h2 t2] eqn:Hs2.
    destruct (negb (bool_decide (h2 = "")) && negb (bool_decide (t2 = ""))
              && negb (exists_ fs h2)) eqn:Hc.
    + exfalso. apply andb_true_iff in Hc as [[Hh Ht]%andb_true_iff Hex].
      apply negb_true_iff, bool_decide_eq_false in Hh, Ht.
      apply negb_true_iff in Hex.
      assert (h1 ≠ "") as Hh1 by (intros ->; by injection Hs2 as <- <-).
      assert (resolve fs h1 = Return k) as Hres1.
      { rewrite <- Hdn. apply resolve_empty_tail; by rewrite ?Hdn. }
      assert (exists_ fs (dirname h1) = true) as Hex'.
      { apply (resolve_dirname_exists fs h1 k Hres1); unfold dirname;
          by rewrite Hs2. }
      unfold dirname in Hex'. rewrite Hs2 in Hex'. simpl in Hex'. congruence.
    + rewrite mkdir_exist_ok_existing in Hspec by done. congruence.
  - apply bool_decide_eq_false in Hb.
    destruct (negb (bool_decide (h1 = "")) && negb (bool_decide (t1 = ""))
              && negb (exists_ fs h1)) eqn:Hc.
    + exfalso. apply andb_true_iff in Hc as [[Hh Ht]%andb_true_iff Hex].
      apply negb_true_iff, bool_decide_eq_false in Hh.
      apply negb_true_iff in Hex.
      assert (exists_ fs (dirname d) = true) as Hex'.
      { apply (resolve_dirname_exists fs d k Hres); by rewrite ?Ht1, ?Hdn. }
      congruence.
    + rewrite mkdir_exist_ok_existing in Hspec by done. congruence.
Qed.

(** *** Nothing is ever removed *)

(** [fs'] has every entry of [fs], the same working directory and the
    same platform. *)
Lemma create_grows (fs fs' : filesystem) (k : list string) (n : node)
    (r : pyresult unit) :
  nodes fs !! k = None → create fs k n = (r, fs') →
  nodes fs ⊆ nodes fs' ∧ cwd fs' = cwd fs ∧ platform_of fs' = platform_of fs.
Proof.
  intros Hk. unfold create.
  destruct (nodes fs !! removelast k) as [[[] ?|? ?]|];
    try destruct (create_fault _); intros [= <- <-]; try done.
  split; [|done]. by apply insert_subseteq.
Qed.

Lemma mkdir_grows (fs fs' : filesystem) (p : string) (r : pyresult unit) :
  mkdir fs p = (r, fs') →
  nodes fs ⊆ nodes fs' ∧ cwd fs' = cwd fs ∧ platform_of fs' = platform_of fs.
Proof.
  unfold mkdir. destruct (resolve fs p) as [k|e]; [|by intros [= <- <-]].
  destruct (nodes fs !! k) eqn:Hk; [by intros [= <- <-]|].
  by apply create_grows.
Qed.

Lemma mkdir_exist_ok_grows (fs fs' : filesystem) (p : string) (r : pyresult unit) :
  mkdir_exist_ok fs p = (r, fs') →
  nodes fs ⊆ nodes fs' ∧ cwd fs' = cwd fs ∧ platform_of fs' = platform_of fs.
Proof.
  unfold mkdir_exist_ok. destruct (mkdir fs p) as [[u|e] fs1] eqn:Hmk.
  - intros [= <- <-]. by eapply mkdir_grows.
  - destruct (_ && _); intros [= <- <-]; by eapply mkdir_grows.
Qed.

Lemma makedirs_fuel_grows (n : nat) :
  ∀ fs fs' name r,
    makedirs_fuel n fs name = Some (r, fs') →
    nodes fs ⊆ nodes fs' ∧ cwd fs' = cwd fs ∧ platform_of fs' = platform_of fs.
Proof.
  induction n as [|n IH]; intros fs fs' name r; [done|]. simpl.
  destruct (split name) as [h1 t1].
  destruct (if bool_decide (t1 = "") then split h1 else (h1, t1)) as [head tail].
  destruct (_ && _); [|intros [= Hm]; by eapply mkdir_exist_ok_grows].
  destruct (makedirs_fuel n fs head) as [[r1 fs1]|] eqn:Hrec; [|done].
  destruct (IH _ _ _ _ Hrec) as (Hsub & Hcwd & Hpf).
  assert (∀ r2 fs2, mkdir_exist_ok fs1 name = (r2, fs2) →
                    nodes fs ⊆ nodes fs2 ∧ cwd fs2 = cwd fs
                    ∧ platform_of fs2 = platform_of fs) as Hstep.
  { intros r2 fs2 (H1 & H2 & H3)%mkdir_exist_ok_grows.
    split; [by etrans|]. split; congruence. }
  destruct r1 as [u|[]]; try (by intros [= <- <-]);
    (case_bool_decide; [by intros [= <- <-]|intros [= Hm]; by eapply Hstep]).
Qed.

(** [os.makedirs] only adds entries. *)
Lemma makedirs_grows (fs fs' : filesystem) (name : string) (r : pyresult unit) :
  makedirs fs name = (r, fs') →
  nodes fs ⊆ nodes fs' ∧ cwd fs' = cwd fs ∧ platform_of fs' = platform_of fs.
Proof.
  intros H. apply (makedirs_fuel_grows (S (String.length name)) fs fs' name r).
  by rewrite makedirs_spec, H.
Qed.

Lemma subseteq_dirs_preserved (ns ns' : gmap (list string) node) :
  ns ⊆ ns' → dirs_preserved ns ns'.
Proof. intros Hsub k w x Hk. by eapply lookup_weaken. Qed.

Lemma resolve_grows (fs fs' : filesystem) (q : string) (k : list string) :
  nodes fs ⊆ nodes fs' → cwd fs' = cwd fs →
  resolve fs q = Return k → resolve fs' q = Return k.
Proof.
  intros Hsub Hcwd (Hnul & Hq & Hlen & Hwalk)%resolve_walk.
  apply walk_resolve; try done. rewrite Hcwd.
  by apply (walk_preserved _ _ _ (subseteq_dirs_preserved _ _ Hsub)).
Qed.

(** What [os.stat] answers stays the answer when entries are added. *)
Lemma stat_grows (fs fs' : filesystem) (q : string) (n : node) :
  nodes fs ⊆ nodes fs' → cwd fs' = cwd fs →
  stat fs q = Return n → stat fs' q = Return n.
Proof.
  intros Hsub Hcwd. unfold stat.
  destruct (resolve fs q) as [k|e] eqn:Hres; [|done].
  rewrite (resolve_grows _ _ _ _ Hsub Hcwd Hres).
  destruct (nodes fs !! k) as [n0|] eqn:Hk; [|done].
  by rewrite (lookup_weaken _ _ _ _ Hk Hsub).
Qed.

(** What [open_write] does to the entries, whether it returns or raises:
    nothing, or a regular file is put where no directory was - with the new
    content, or with what a failed write left. *)
Lemma open_write_nodes (fs fs' : filesystem) (p c : string) (r : pyresult unit) :
  open_write fs p c = (r, fs') →
  fs' = fs
  ∨ ∃ k w c', resolve fs p = Return k
              ∧ (∀ w' x', nodes fs !! k ≠ Some (Dir w' x'))
              ∧ fs' = with_nodes fs (<[k := File w c']> (nodes fs)).
Proof.
  unfold open_write. destruct (open_w fs p) as [[k|e] fs1] eqn:Hop.
  - apply open_w_Return in Hop as (w & Hres & Hend & Hnd & -> & Hw).
    unfold write_close. simpl. rewrite lookup_insert_eq.
    destruct (write_fault (platform_of fs) c) as [[e rest]|];
      intros [= _ <-]; right; [exists k, w, rest|exists k, w, c];
      unfold with_nodes; simpl; by rewrite insert_insert_eq.
  - apply open_w_Raise in Hop as ->. intros [= _ <-]. by left.
Qed.

(** After [open_write], whatever it returned: a directory is still a
    directory, and a regular file holds what it held unless it is the
    file at the path that was opened. *)
Lemma open_write_stat (fs fs' : filesystem) (p c q : string) (r : pyresult unit)
    (n : node) :
  open_write fs p c = (r, fs') → stat fs q = Return n →
  match n with
  | Dir w x => stat fs' q = Return (Dir w x)
  | File w c0 =>
      stat fs' q = Return (File w c0)
      ∨ ∃ k, resolve fs' q = Return k ∧ resolve fs' p = Return k
  end.
Proof.
  intros Hop Hq.
  destruct (open_write_nodes _ _ _ _ _ Hop) as [->|(k & w & c' & Hres & Hnd & ->)].
  { destruct n; auto. }
  pose proof (insert_file_dirs_preserved (nodes fs) k w c' Hnd) as Hpres.
  pose proof (resolve_preserved fs _ p k Hpres Hres) as Hres'.
  unfold stat in *. destruct (resolve fs q) as [kq|] eqn:Hrq; [|done].
  pose proof (resolve_preserved fs _ q kq Hpres Hrq) as Hrq'.
  rewrite Hrq'. simpl.
  destruct (nodes fs !! kq) as [[wd xd|wf c0]|] eqn:Hkq; [| |done].
  - injection Hq as <-. by rewrite (Hpres _ _ _ Hkq).
  - destruct (ends_with_slash q); [done|]. injection Hq as <-.
    destruct (decide (k = kq)) as [->|Hne].
    + right. by exists kq.
    + left. by rewrite lookup_insert_ne, Hkq.
Qed.

Lemma ends_with_slash_app_slash (d : string) : ends_with_slash (d +:+ "/") = true.
Proof.
  induction d as [|c d IH]; [done|]. rewrite append_cons.
  simpl. destruct (d +:+ "/") eqn:Hd; [by destruct d|done].
Qed.

(** A path that ends in a slash cannot be opened for writing. *)
Lemma open_write_trailing_slash (fs : filesystem) (p c : string) :
  ends_with_slash p = true → ∃ e, open_write fs p c = (Raise e, fs).
Proof.
  intros He. unfold open_write, open_w.
  destruct (resolve fs p) as [k|e]; [|by eauto].
  destruct (nodes fs !! k) as [[wd xd|wf c0]|]; rewrite ?He; eauto.
Qed.

End MoreFSFacts.

(** ** More about [write_file] *)

Module MoreWriteFacts.
Import PosixPath.
Import FS.
Import Tools.
Import Samples.
Import PathFacts.
Import FSFacts.
Import WriteFacts.
Import MoreFSFacts.

(** Opening for writing again the file that [open_write] has just
    written, when the file may be written and the write does not fail. *)
Lemma open_write_again (fs : filesystem) (p c c' : string) (k : list string) :
  resolve fs p = Return k → ends_with_slash p = false →
  (∀ w' x', nodes fs !! k ≠ Some (Dir w' x')) →
  write_fault (platform_of fs) c' = None →
  open_write (with_nodes fs (<[k := File true c]> (nodes fs))) p c'
  = (Return (), with_nodes fs (<[k := File true c']> (nodes fs))).
Proof.
  intros Hres Hend Hnd Hfault. unfold open_write, open_w.
  rewrite (resolve_preserved fs _ p k (insert_file_dirs_preserved _ k true c Hnd) Hres).
  simpl. rewrite lookup_insert_eq, Hend. unfold write_close, with_nodes. simpl.
  by rewrite lookup_insert_eq, Hfault, !insert_insert_eq.
Qed.

(** X4. Writing again where a write has succeeded.  On a host whose umask
    leaves a new file writable, and for a new content whose write does not
    fail, the second call returns the success status and the file then
    holds the new content; writing the same content again leaves the file
    system as it was. *)
Theorem write_file_again (w w1 : world) (directory filename content content' : string)
    (r : list (string * string)) :
  write_file directory filename content w = (Return r, w1) →
  new_writable (platform_of (files w)) = true →
  write_fault (platform_of (files w)) content' = None →
  (write_file directory filename content' w1).1 = Return (status_dict "success")
  ∧ read_file (files (write_file directory filename content' w1).2)
              (join directory filename) = Some content'
  ∧ (content' = content →
     files (write_file directory filename content' w1).2 = files w1).
Proof.
  intros Hw Hnw Hfault.
  destruct (write_file_Return _ _ _ _ _ _ Hw) as (_ & Hdir & _).
  rewrite write_file_eq in Hw. simpl in Hw.
  destruct (makedirs (files w) _) as [[u|e] fsA] eqn:Hmk; [|done].
  destruct (makedirs_grows _ _ _ _ Hmk) as (_ & _ & Hpf).
  destruct (open_write fsA _ content) as [[u'|e] fsB] eqn:Hop; [|done].
  injection Hw as _ <-. simpl in *.
  apply open_write_Return in Hop as (k & wf & Hres & Hend & Hnd & -> & Hwf & _).
  assert (wf = true) as -> by (destruct Hwf as [?|[_ ?]]; congruence).
  rewrite <- Hpf in Hfault.
  pose proof (open_write_again fsA _ content content' k Hres Hend Hnd Hfault) as Hop2.
  rewrite write_file_eq. simpl. rewrite (makedirs_existing _ _ Hdir), Hop2. simpl.
  split; [done|]. split.
  - by apply (open_write_read _ _ _ _ _ Hop2).
  - by intros ->.
Qed.

Lemma write_file_again_witness :
  write_file "verdicts" "Example.txt" "first" fresh_world
  = (Return (status_dict "success"),
     (write_file "verdicts" "Example.txt" "first" fresh_world).2)
  ∧ read_file
      (files (write_file "verdicts" "Example.txt" "second"
                (write_file "verdicts" "Example.txt" "first" fresh_world).2).2)
      (join "verdicts" "Example.txt") = Some "second".
Proof.
  assert (write_file "verdicts" "Example.txt" "first" fresh_world
          = (Return (status_dict "success"),
             (write_file "verdicts" "Example.txt" "first" fresh_world).2)) as H
    by (vm_compute; reflexivity).
  split; [exact H|].
  exact (proj1 (proj2 (write_file_again fresh_world _ "verdicts" "Example.txt"
                         "first" "second" _ H eq_refl eq_refl))).
Defined.

(** Under a umask that takes the write permission from new files, the
    second call into a writable directory is refused. *)
Example write_file_again_denied :
  let fs := mkFS (<[ ["home"; "verdicts"] := Dir true true ]> (nodes home_fs))
                 (cwd home_fs) (mkPlatform false true None (λ _, None)) in
  let w := mkWorld (mkCtx ∅ false false) fs [] in
  (write_file "verdicts" "Example.txt" "first" w).1
  = Return (status_dict "success")
  ∧ (write_file "verdicts" "Example.txt" "second"
       (write_file "verdicts" "Example.txt" "first" w).2).1
    = Raise PermissionError.
Proof. vm_compute. done. Qed.

(** A write that fails after the file was opened has already emptied
    it. *)
Example write_file_fault_truncates :
  let fault (c : string) :=
    if bool_decide (c = "second") then Some (UnicodeEncodeError, "") else None in
  let fs := mkFS (nodes home_fs) (cwd home_fs)
                 (mkPlatform true true None fault) in
  let w := mkWorld (mkCtx ∅ false false) fs [] in
  let w1 := (write_file "verdicts" "Example.txt" "first" w).2 in
  read_file (files w1) "verdicts/Example.txt" = Some "first"
  ∧ (write_file "verdicts" "Example.txt" "second" w1).1 = Raise UnicodeEncodeError
  ∧ read_file (files (write_file "verdicts" "Example.txt" "second" w1).2)
              "verdicts/Example.txt" = Some "".
Proof. vm_compute. done. Qed.

(** X5. With an empty file name [write_file] always raises: the path it
    builds is empty or ends in a slash, and names no file. *)
Theorem write_file_empty_filename (w : world) (directory content : string) :
  ∃ e, (write_file directory "" content w).1 = Raise e.
Proof.
  rewrite write_file_eq. simpl.
  destruct (makedirs (files w) (dirname (join directory ""))) as [[u|e] fs1] eqn:Hmk;
    [|by exists e].
  assert (join directory "" ≠ "" → ends_with_slash (join directory "") = true) as Hend.
  { unfold join. simpl. case_bool_decide as Hd; simpl.
    - subst. by rewrite append_nil_l.
    - intros _. destruct (ends_with_slash directory) eqn:He.
      + by rewrite append_nil_r.
      + apply ends_with_slash_app_slash. }
  destruct (decide (join directory "" = "")) as [Hj|Hj].
  - rewrite Hj in Hmk. change (dirname "") with "" in Hmk.
    by rewrite makedirs_empty in Hmk.
  - destruct (open_write_trailing_slash fs1 _ content (Hend Hj)) as [e ->].
    by exists e.
Qed.

(** X6. [write_file] never touches the state store or the flags, and it
    spares the rest of the file system (a tree without links), whether it
    returns or raises: a directory stays a directory, and a regular file
    keeps its content unless its path leads to the very entry that the
    path of the call leads to. *)
Theorem write_file_keeps_the_rest (w : world) (directory filename content q : string) :
  ctx (write_file directory filename content w).2 = ctx w
  ∧ (isdir (files w) q = true →
     isdir (files (write_file directory filename content w).2) q = true)
  ∧ (∀ c0, read_file (files w) q = Some c0 →
       read_file (files (write_file directory filename content w).2) q = Some c0
       ∨ ∃ k,
           resolve (files (write_file directory filename content w).2) q = Return k
           ∧ resolve (files (write_file directory filename content w).2)
                     (join directory filename) = Return k).
Proof.
  split; [apply write_file_ctx|].
  assert (∀ n, stat (files w) q = Return n →
            match n with
            | Dir wd xd =>
                stat (files (write_file directory filename content w).2) q
                = Return (Dir wd xd)
            | File wf c0 =>
                stat (files (write_file directory filename content w).2) q
                = Return (File wf c0)
                ∨ ∃ k,
                    resolve (files (write_file directory filename content w).2) q
                    = Return k
                    ∧ resolve (files (write_file directory filename content w).2)
                              (join directory filename) = Return k
            end) as Hstat.
  { intros n Hn. rewrite write_file_eq. simpl.
    destruct (makedirs (files w) _) as [r1 fs1] eqn:Hmk.
    destruct (makedirs_grows _ _ _ _ Hmk) as (Hsub & Hcwd & _).
    pose proof (stat_grows _ _ _ _ Hsub Hcwd Hn) as Hn1.
    destruct r1 as [u|e]; [|destruct n; auto].
    destruct (open_write fs1 _ content) as [r2 fs2] eqn:Hop.
    pose proof (open_write_stat _ _ _ _ _ _ _ Hop Hn1) as Hn2.
    destruct r2 as [u'|e]; simpl; destruct n; auto. }
  split.
  - unfold isdir. destruct (stat (files w) q) as [[wd xd|wf c0]|] eqn:Hq; try done.
    intros _. by rewrite (Hstat _ eq_refl).
  - intros c0. unfold read_file.
    destruct (stat (files w) q) as [[wd xd|wf c1]|] eqn:Hq; try done.
    intros [= ->]. destruct (Hstat _ eq_refl) as [->|?]; auto.
Qed.

End MoreWriteFacts.

(** ** Writing into a fresh directory *)

Module FreshDirectoryFacts.
Import PosixPath.
Import FS.
Import Tools.
Import Samples.
Import PathFacts.
Import FSFacts.
Import WriteFacts.
Import MoreFSFacts.

Lemma no_slash_start (s : string) : has_slash s = false → starts_with_slash s = false.
Proof. destruct s as [|c s]; [done|]. simpl. by intros [? _]%orb_false_iff. Qed.

Lemma no_slash_end (s : string) : has_slash s = false → ends_with_slash s = false.
Proof.
  induction s as [|c s IH]; [done|]. simpl. intros [Hc Hs]%orb_false_iff.
  destruct s; [done|]. by apply IH.
Qed.

Lemma tokens_no_slash (s : string) : has_slash s = false → tokens s = [s].
Proof.
  induction s as [|c s IH]; [done|]. simpl. intros [Hc Hs]%orb_false_iff.
  by rewrite Hc, (IH Hs).
Qed.

Lemma segments_plain (s : string) : plain_name s → segments s = [s].
Proof.
  intros (Hs & Hne & _). unfold segments. rewrite (tokens_no_slash s Hs).
  by rewrite filter_cons_True, filter_nil.
Qed.

Lemma step_plain (cur : list string) (s : string) :
  plain_name s → step cur s = cur ++ [s].
Proof.
  intros (_ & _ & Hdot & Hdotdot & _). unfold step.
  by rewrite !bool_decide_eq_false_2.
Qed.

Lemma segments_two (d f : string) :
  plain_name d → plain_name f → segments (d +:+ String "/" f) = [d; f].
Proof.
  intros Hd Hf. unfold segments. rewrite tokens_app_slash, filter_app.
  fold (segments d) (segments f). by rewrite !segments_plain.
Qed.

Lemma cut_app_slash (r f : string) :
  has_slash f = false →
  cut_last_slash (r +:+ String "/" f) = (r +:+ "/", f).
Proof.
  intros Hf. induction r as [|c r IH].
  - rewrite !append_nil_l. simpl. by rewrite (cut_last_slash_no_slash f Hf).
  - rewrite !append_cons. simpl. rewrite IH.
    destruct r; by rewrite ?append_nil_l, ?append_cons.
Qed.

Lemma rstrip_app_slash (d : string) :
  has_slash d = false → d ≠ "" → rstrip_slash (d +:+ "/") = d.
Proof.
  induction d as [|c d IH]; [done|]. simpl. intros [Hc Hd]%orb_false_iff _.
  destruct d as [|c' d'].
  - rewrite append_nil_l. simpl. by rewrite Hc.
  - by rewrite (IH Hd).
Qed.

Lemma split_two (d f : string) :
  plain_name d → plain_name f → split (d +:+ String "/" f) = (d, f).
Proof.
  intros (Hd & Hdne & _) (Hf & _). unfold split.
  rewrite (cut_app_slash d f Hf).
  assert (bool_decide (d +:+ "/" = "") = false) as ->.
  { apply bool_decide_eq_false. by destruct d. }
  assert (all_slash (d +:+ "/") = false) as ->.
  { destruct d as [|c d]; [done|]. simpl in Hd.
    apply orb_false_iff in Hd as [Hc _]. rewrite append_cons. simpl.
    by rewrite Hc. }
  simpl. by rewrite rstrip_app_slash.
Qed.

Lemma ends_with_slash_append (r f : string) :
  f ≠ "" → ends_with_slash (r +:+ f) = ends_with_slash f.
Proof.
  intros Hf. induction r as [|c r IH]; [done|]. rewrite append_cons. simpl.
  destruct (r +:+ f) eqn:Hrf; [|done].
  destruct r; [by rewrite append_nil_l in Hrf|by rewrite append_cons in Hrf].
Qed.

(** [os.makedirs] on a single component goes straight to [mkdir]. *)
Lemma makedirs_no_slash (fs : filesystem) (d : string) :
  has_slash d = false → d ≠ "" → makedirs fs d = mkdir_exist_ok fs d.
Proof.
  intros Hd Hne. pose proof (makedirs_spec fs d) as Hspec. simpl in Hspec.
  unfold split in Hspec. rewrite (cut_last_slash_no_slash d Hd) in Hspec.
  simpl in Hspec. rewrite (bool_decide_eq_false_2 (d = "")) in Hspec by done.
  simpl in Hspec. congruence.
Qed.

(** A plain name resolves to the entry of that name in the working
    directory, when that directory may be searched. *)
Lemma resolve_plain (fs : filesystem) (d : string) (wd : bool) :
  plain_name d → nodes fs !! cwd fs = Some (Dir wd true) →
  resolve fs d = Return (cwd fs ++ [d]).
Proof.
  intros Hd Hcwd. pose proof Hd as (Hs & Hne & _ & _ & Hnul & Hlen).
  apply walk_resolve; try done.
  - unfold PATH_MAX, NAME_MAX in *. lia.
  - rewrite (no_slash_start _ Hs), (segments_plain _ Hd). simpl.
    by rewrite Hcwd, bool_decide_eq_true_2, (step_plain _ _ Hd).
Qed.

(** The path of a plain file name in a plain directory resolves to the
    entry of that name in that directory, when both directories may be
    searched. *)
Lemma resolve_two (fs : filesystem) (d f : string) (wc wd : bool) :
  plain_name d → plain_name f →
  nodes fs !! cwd fs = Some (Dir wc true) →
  nodes fs !! (cwd fs ++ [d]) = Some (Dir wd true) →
  resolve fs (d +:+ String "/" f) = Return (cwd fs ++ [d; f]).
Proof.
  intros Hd Hf Hcwd Hdir.
  pose proof Hd as (Hds & Hdne & _ & _ & Hdnul & Hdlen).
  pose proof Hf as (Hfs & Hfne & _ & _ & Hfnul & Hflen).
  apply walk_resolve.
  - rewrite has_nul_app. simpl. by rewrite Hdnul, Hfnul.
  - by destruct d.
  - rewrite length_append. simpl. unfold PATH_MAX, NAME_MAX in *. lia.
  - assert (starts_with_slash (d +:+ String "/" f) = false) as ->.
    { destruct d; [done|]. by apply (no_slash_start _ Hds). }
    rewrite (segments_two _ _ Hd Hf). simpl.
    rewrite Hcwd, bool_decide_eq_true_2 by done.
    rewrite (step_plain _ _ Hd), Hdir, bool_decide_eq_true_2 by done.
    rewrite (step_plain _ _ Hf), <- app_assoc. done.
Qed.

(** X7. The report of a first run.  The working directory may be written
    and searched and has no entry [directory] yet; [directory] and
    [filename] are plain names (no slash, no NUL, not empty, not a dot
    name, within the limit on names); the umask leaves new entries
    writable and searchable, the host has room for them, and the write of
    [content] does not fail.  Then [write_file] creates the directory,
    puts the file with the content in it, logs the path and returns the
    success status. *)
Theorem write_file_fresh_directory (w : world) (directory filename content : string) :
  plain_name directory → plain_name filename →
  nodes (files w) !! cwd (files w) = Some (Dir true true) →
  new_writable (platform_of (files w)) = true →
  new_searchable (platform_of (files w)) = true →
  create_fault (platform_of (files w)) = None →
  write_fault (platform_of (files w)) content = None →
  nodes (files w) !! (cwd (files w) ++ [directory]) = None →
  nodes (files w) !! (cwd (files w) ++ [directory; filename]) = None →
  write_file directory filename content w
  = (Return (status_dict "success"),
     mkWorld (ctx w)
       (mkFS (<[cwd (files w) ++ [directory; filename] := File true content]>
                (<[cwd (files w) ++ [directory] := Dir true true]>
                   (nodes (files w))))
             (cwd (files w)) (platform_of (files w)))
       (log w ++ ["File written to " +:+ directory +:+ "/" +:+ filename])).
Proof.
  intros Hd Hf Hcwd Hnw Hns Hcf Hwf Hnew Hfile.
  pose proof Hd as (Hds & Hdne & _). pose proof Hf as (Hfs & Hfne & _).
  rewrite write_file_eq.
  rewrite (join_plain directory filename)
    by eauto using no_slash_end, no_slash_start.
  change (directory +:+ "/" +:+ filename)
    with (directory +:+ String "/" filename).
  cbv zeta. unfold dirname. rewrite (split_two _ _ Hd Hf). simpl fst.
  destruct (files w) as [ns cw pf] eqn:Hfs0. simpl in *.
  assert (cw ≠ cw ++ [directory]) as Hne1.
  { intros H. apply (f_equal length) in H. rewrite length_app in H. simpl in H. lia. }
  assert (cw ++ [directory] ≠ cw ++ [directory; filename]) as Hne2.
  { intros H. apply (f_equal length) in H. rewrite !length_app in H.
    simpl in H. lia. }
  (* the directory *)
  assert (makedirs (mkFS ns cw pf) directory
          = (Return (), mkFS (<[cw ++ [directory] := Dir true true]> ns) cw pf)) as ->.
  { rewrite makedirs_no_slash by done.
    unfold mkdir_exist_ok, mkdir.
    rewrite (resolve_plain (mkFS ns cw pf) directory true Hd Hcwd). simpl.
    rewrite Hnew. unfold create. simpl.
    by rewrite removelast_last, Hcwd, Hcf, Hnw, Hns. }
  (* the file *)
  assert (open_write (mkFS (<[cw ++ [directory] := Dir true true]> ns) cw pf)
                     (directory +:+ String "/" filename) content
          = (Return (),
             mkFS (<[cw ++ [directory; filename] := File true content]>
                     (<[cw ++ [directory] := Dir true true]> ns)) cw pf)) as ->.
  { unfold open_write, open_w.
    rewrite (resolve_two (mkFS (<[cw ++ [directory] := Dir true true]> ns) cw pf)
               directory filename true true Hd Hf)
      by (simpl; by rewrite ?lookup_insert_eq, ?lookup_insert_ne).
    simpl. rewrite lookup_insert_ne, Hfile by done.
    rewrite (ends_with_slash_append directory (String "/" filename)) by done.
    assert (ends_with_slash (String "/" filename) = false) as ->.
    { destruct filename; [done|]. by apply (no_slash_end _ Hfs). }
    unfold create. simpl.
    replace (cw ++ [directory; filename]) with ((cw ++ [directory]) ++ [filename])
      by (by rewrite <- app_assoc).
    rewrite removelast_last, lookup_insert_eq, Hcf, Hnw.
    unfold write_close, with_nodes. simpl.
    by rewrite lookup_insert_eq, Hwf, insert_insert_eq. }
  reflexivity.
Qed.

Lemma write_file_fresh_directory_witness :
  plain_name "verdicts" ∧ plain_name "Example.txt"
  ∧ read_file (files (write_file "verdicts" "Example.txt" "report" fresh_world).2)
              "verdicts/Example.txt" = Some "report".
Proof.
  assert (plain_name "verdicts") as Hd
    by (repeat split; try discriminate; unfold NAME_MAX; simpl; lia).
  assert (plain_name "Example.txt") as Hf
    by (repeat split; try discriminate; unfold NAME_MAX; simpl; lia).
  split; [exact Hd|]. split; [exact Hf|].
  rewrite (write_file_fresh_directory fresh_world "verdicts" "Example.txt" "report"
             Hd Hf eq_refl eq_refl eq_refl eq_refl eq_refl eq_refl eq_refl).
  reflexivity.
Defined.

(** The limits that [plain_name] asks for are needed: a file name of 256
    bytes is refused after the directory was made. *)
Example write_file_name_too_long :
  let name := String.concat "" (replicate 256 "a") in
  (write_file "verdicts" name "report" fresh_world).1 = Raise (OSError ENAMETOOLONG)
  ∧ isdir (files (write_file "verdicts" name "report" fresh_world).2) "verdicts"
    = true.
Proof. vm_compute. done. Qed.

(** And so is the absence of NUL. *)
Example write_file_nul_in_name :
  (write_file "verdicts" (String "000" "") "report" fresh_world).1 = Raise ValueError
  ∧ isdir (files (write_file "verdicts" (String "000" "") "report" fresh_world).2)
          "verdicts" = true.
Proof. vm_compute. done. Qed.

End FreshDirectoryFacts.

(** ** The graph *)

Module GraphFacts.
Import Agents.
Import Runner.

(** The eight agents of the court have eight different names, and each
    tool has the holders listed: [exit_loop] only the judge, [write_file]
    only the scribe, the external query only the two researchers,
    [append_to_state] the clerk and the two researchers. *)
Theorem court_names_and_tools (model_name : option string) :
  all_names (root_agent model_name)
  = ["inquiry_clerk"; "historical_court"; "trial_and_review";
     "investigation_team"; "admirer_researcher"; "critic_researcher";
     "judge"; "verdict_writer"]
  ∧ NoDup (all_names (root_agent model_name))
  ∧ holdings (root_agent model_name)
    = [("inquiry_clerk", tool_append_to_state);
       ("admirer_researcher", wikipedia);
       ("admirer_researcher", tool_append_to_state);
       ("critic_researcher", wikipedia);
       ("critic_researcher", tool_append_to_state);
       ("judge", tool_exit_loop);
       ("verdict_writer", tool_write_file)].
Proof.
  split; [reflexivity|]. split; [|reflexivity].
  apply (bool_decide_unpack _). vm_compute. exact I.
Qed.

End GraphFacts.
